(** * Single transferable vote tally (Vote.py)

    A shallow embedding of the classes [Vote], [Participant] and [Context]
    of Vote.py, followed by the properties of the tally.

    Modelling choices.
    - Python objects are mutable and shared.  Every [Vote] object of an
      election lives in the list [Context.votes]; a participant's list of
      votes holds references to these objects, modelled as positions in
      [Context.votes].  Mutating a vote is an update of that list.
    - A [Participant] object is held by exactly one of the three lists
      [participants], [winners], [eliminated]; it is modelled by value.
    - Weights, vote counts and the quota are Python floats.  They are
      modelled by exact rationals [Q]; equalities between them are stated
      with [==].
    - The number of seats is a Python integer of any size, modelled by
      [Z].  It meets a float in the computation of the quota only, where
      an integer too large for a float raises OverflowError.
    - A method call either returns or raises, and the object keeps the
      mutations done before the exception: [result] carries the state in
      both cases. *)

From Stdlib Require Import QArith Qround Lqa ZArith Lia Sorted Ascii String.
From stdpp Require Import base tactics list strings.

Close Scope Q_scope.

(** ** Exceptions and outcomes *)

Inductive error := IndexError | AttributeError | ZeroDivisionError | OverflowError.

Inductive result (A : Type) :=
| Ok (a : A)
| Raise (e : error) (a : A).
Arguments Ok {A} a.
Arguments Raise {A} e a.

Definition state_of {A} (r : result A) : A :=
  match r with Ok a | Raise _ a => a end.

Definition bind {A} (r : result A) (k : A → result A) : result A :=
  match r with Ok a => k a | Raise e a => Raise e a end.

(** [for x in l: body], stopping at the first exception. *)
Fixpoint for_each {A X} (body : A → X → result A) (l : list X) (a : A) : result A :=
  match l with
  | [] => Ok a
  | x :: l' => bind (body a x) (for_each body l')
  end.

(** ** class Vote *)

Module Vote.

Record t := mk { prefs : list string; weight : Q }.

(** [__init__]: an own copy of the preferences, weight 1.0. *)
Definition new (prefs : list string) : t := mk prefs 1.

Definition first_choice (v : t) : option string :=
  match prefs v with
  | [] => None
  | p :: _ => Some p
  end.

Definition is_white (v : t) : bool :=
  match prefs v with
  | [] => true
  | _ :: _ => false
  end.

Definition clear (v : t) : t := mk [] (weight v).

(** [update]: the weight is multiplied first; [prefs.pop(0)] then raises
    IndexError on an empty list. *)
Definition update (wcoef : Q) (v : t) : result t :=
  let v := mk (prefs v) (weight v * wcoef) in
  match prefs v with
  | [] => Raise IndexError v
  | _ :: rest => Ok (mk rest (weight v))
  end.

End Vote.

(** ** class Participant *)

Module Participant.

Record t := mk { name : string; votes : list nat }.

Definition new (name : string) : t := mk name [].

(** The vote object a reference points to.  A reference that points to
    no object reads as a white vote of weight 0; [Context.init] and the
    rounds never create one. *)
Definition vote_at (store : list Vote.t) (i : nat) : Vote.t :=
  default (Vote.mk [] 0) (store !! i).

Definition count_votes (store : list Vote.t) (p : t) : Q :=
  fold_left (λ ret i, ret + Vote.weight (vote_at store i))%Q (votes p) 0%Q.

Definition add_vote (vote : nat) (p : t) : t := mk (name p) (votes p ++ [vote]).

Definition destroy_white_votes (store : list Vote.t) (p : t) : t :=
  mk (name p) (List.filter (λ i, negb (Vote.is_white (vote_at store i))) (votes p)).

Definition clear (p : t) : t := mk (name p) [].

End Participant.

(** ** class Context *)

Module Context.

Record t := mk {
  participants : list Participant.t;
  seats : Z;
  votes : list Vote.t;
  winners : list Participant.t;
  eliminated : list Participant.t;
  phase : nat;
  quota : Q
}.

Definition set_participants (ps : list Participant.t) (c : t) : t :=
  mk ps (seats c) (votes c) (winners c) (eliminated c) (phase c) (quota c).
Definition set_votes (vs : list Vote.t) (c : t) : t :=
  mk (participants c) (seats c) vs (winners c) (eliminated c) (phase c) (quota c).
Definition set_winners (ws : list Participant.t) (c : t) : t :=
  mk (participants c) (seats c) (votes c) ws (eliminated c) (phase c) (quota c).
Definition set_eliminated (es : list Participant.t) (c : t) : t :=
  mk (participants c) (seats c) (votes c) (winners c) es (phase c) (quota c).
Definition set_phase (n : nat) (c : t) : t :=
  mk (participants c) (seats c) (votes c) (winners c) (eliminated c) n (quota c).

(** [get_participants], after the file has been read: [pnames] is the
    list [list(set(pnames.split()))], in the order the set yields. *)
Definition get_participants (pnames : list string) : list Participant.t :=
  map Participant.new pnames.

(** [get_votes], after the file has been read: one list of preferences
    per line. *)
Definition get_votes (lines : list (list string)) : list Vote.t :=
  map Vote.new lines.

Definition destroy_white_votes (vs : list Vote.t) : list Vote.t :=
  List.filter (λ v, negb (Vote.is_white v)) vs.

(** [1.0 + len(votes)/(seats+1.0)], then [ceil].  The division is a float
    division; [init] raises ZeroDivisionError for it when [seats = -1].
    The value is the exact one: it is the one the floats give as long as
    [len(votes)] and [seats + 1] are small enough for the quotient and the
    sum to be rounded to the same side of an integer, as they are in every
    election evaluated below. *)
Definition compute_quota (nvotes : nat) (seats : Z) : Q :=
  let quota := (1 + inject_Z (Z.of_nat nvotes) / inject_Z (seats + 1))%Q in
  inject_Z (Qceiling quota).

(** [seats + 1.0] converts the integer [seats] to a float.  An integer
    whose magnitude is [2^1024 - 2^970] or more rounds (to nearest, ties to
    even) beyond the largest double, and the conversion raises
    OverflowError. *)
Definition float_limit : Z := (2 ^ 1024 - 2 ^ 970)%Z.

Definition fits_float (n : Z) : bool := (Z.abs n <? float_limit)%Z.

(** [__init__].  When it raises, no object is built. *)
Definition init (participants : list string) (seats : Z)
    (votes : list (list string)) : error + t :=
  let ps := get_participants participants in
  let vs := destroy_white_votes (get_votes votes) in
  if negb (fits_float seats) then inl OverflowError
  else if (seats + 1 =? 0)%Z then inl ZeroDivisionError
  else inr (mk ps seats vs [] [] 0 (compute_quota (length vs) seats)).

Definition complete (c : t) : bool :=
  (Z.of_nat (length (winners c)) =? seats c)%Z.

(** [find_participant]: the first participant still running whose name
    is [name], as a position in [participants]; [name] is [None] when it
    comes from the [first_choice] of a white vote. *)
Fixpoint find_participant (ps : list Participant.t) (name : option string)
    : option nat :=
  match ps with
  | [] => None
  | p :: ps' =>
      if decide (Some (Participant.name p) = name) then Some 0%nat
      else S <$> find_participant ps' name
  end.

(** The [while not vote.is_white()] loop of [migrate], for the vote object
    [vote] whose preferences and weight are [prefs] and [weight].  Each
    turn that finds nobody calls [vote.update()], which multiplies the
    weight by 1.0 and pops the first preference. *)
Fixpoint cycle (c : t) (vote : nat) (prefs : list string) (weight : Q) : t :=
  match prefs with
  | [] => set_votes (<[vote := Vote.mk [] weight]> (votes c)) c
  | p :: rest =>
      match find_participant (participants c) (Some p) with
      | Some k =>
          set_participants (alter (Participant.add_vote vote) k (participants c))
            (set_votes (<[vote := Vote.mk prefs weight]> (votes c)) c)
      | None => cycle c vote rest (weight * 1)%Q
      end
  end.

(** Body of the [for vote in source.votes] loop of [migrate]. *)
Definition migrate_vote (wcoef : Q) (c : t) (vote : nat) : result t :=
  match Vote.update wcoef (Participant.vote_at (votes c) vote) with
  | Raise e v => Raise e (set_votes (<[vote := v]> (votes c)) c)
  | Ok v => Ok (cycle c vote (Vote.prefs v) (Vote.weight v))
  end.

(** The list that holds the object [source] of [migrate]: [election_phase]
    has just appended it to [winners] or to [eliminated]. *)
Inductive home := in_winners | in_eliminated.

Definition alter_last {A} (f : A → A) (l : list A) : list A :=
  alter f (pred (length l)) l.

Definition clear_source (h : home) (c : t) : t :=
  match h with
  | in_winners => set_winners (alter_last Participant.clear (winners c)) c
  | in_eliminated => set_eliminated (alter_last Participant.clear (eliminated c)) c
  end.

(** [migrate (source, wcoef)]; [source] is the last object of the list [h]. *)
Definition migrate (c : t) (h : home) (source : Participant.t) (wcoef : Q)
    : result t :=
  bind (for_each (migrate_vote wcoef) (Participant.votes source) c)
       (λ c, Ok (clear_source h c)).

(** [participants.sort(key = count_votes, reverse = True)]: a stable sort,
    largest count first, equal counts in their former order. *)
Fixpoint insert_desc (key : Participant.t → Q) (p : Participant.t)
    (l : list Participant.t) : list Participant.t :=
  match l with
  | [] => [p]
  | q :: l' =>
      if Qle_bool (key q) (key p) then p :: l else q :: insert_desc key p l'
  end.

Definition sort_desc (key : Participant.t → Q) (l : list Participant.t)
    : list Participant.t :=
  foldr (insert_desc key) [] l.

(** [participants.pop()] on a list known to have a first element. *)
Definition pop_last (p : Participant.t) (l : list Participant.t)
    : Participant.t * list Participant.t :=
  (List.last l p, removelast (p :: l)).

Definition election_phase (c : t) : result t :=
  let c := set_phase (S (phase c)) c in
  let c := set_participants
             (sort_desc (Participant.count_votes (votes c)) (participants c)) c in
  match participants c with
  | [] => Raise IndexError c
  | first :: rest =>
      if Qle_bool (quota c) (Participant.count_votes (votes c) first) then
        let c := set_winners (winners c ++ [first]) c in
        let c := set_participants rest c in
        let no_of_votes := Participant.count_votes (votes c) first in
        if Qeq_bool no_of_votes 0 then Raise ZeroDivisionError c
        else migrate c in_winners first ((no_of_votes - quota c) / no_of_votes)%Q
      else
        let (last, others) := pop_last first rest in
        let c := set_participants others c in
        let c := set_eliminated (eliminated c ++ [last]) c in
        let c :=
          if (Z.of_nat (length (winners c) + length (participants c)) =? seats c)%Z
          then set_participants [] (set_winners (winners c ++ participants c) c)
          else c in
        migrate c in_eliminated last 1%Q
  end.

(** The initial [for vote in self.votes] loop of [election_loop]:
    [find_participant] returns [None] for an unknown name and
    [None.add_vote] raises AttributeError. *)
Definition assign_vote (ps : list Participant.t) (iv : nat * Vote.t)
    : result (list Participant.t) :=
  match find_participant ps (Vote.first_choice iv.2) with
  | None => Raise AttributeError ps
  | Some k => Ok (alter (Participant.add_vote iv.1) k ps)
  end.

Definition assign_votes (c : t) : result t :=
  match for_each assign_vote (imap pair (votes c)) (participants c) with
  | Ok ps => Ok (set_participants ps c)
  | Raise e ps => Raise e (set_participants ps c)
  end.

(** The [while not self.complete()] loop, run for at most [fuel] rounds;
    [None] when the rounds are not over by then.  The debugger breakpoint
    in the loop body is left out. *)
Fixpoint rounds (fuel : nat) (c : t) : option (result t) :=
  if complete c then Some (Ok c)
  else
    match fuel with
    | O => None
    | S fuel' =>
        match election_phase c with
        | Ok c' => rounds fuel' c'
        | Raise e c' => Some (Raise e c')
        end
    end.

Definition election_loop (fuel : nat) (c : t) : option (result t) :=
  match assign_votes c with
  | Ok c' => rounds fuel c'
  | Raise e c' => Some (Raise e c')
  end.

End Context.

(** ** Reading the votes file: the file branch of get_votes *)

(** The characters at which [str.split()] cuts: space, tab, line feed,
    vertical tab, form feed and carriage return. *)
Definition is_space (a : ascii) : bool :=
  let n := nat_of_ascii a in
  ((n =? 32) || ((9 <=? n) && (n <=? 13)))%nat.

Definition is_newline (a : ascii) : bool := (nat_of_ascii a =? 10)%nat.

(** [s.split()]: the maximal runs of characters that are not spaces;
    [word] is the run being read. *)
Fixpoint split_space (word : string) (s : string) : list string :=
  match s with
  | EmptyString => if decide (word = EmptyString) then [] else [word]
  | String a s' =>
      if is_space a then
        if decide (word = EmptyString) then split_space EmptyString s'
        else word :: split_space EmptyString s'
      else split_space (word +:+ String a EmptyString) s'
  end.

(** [s.split("\n")]: the pieces between line feeds, empty pieces included;
    [line] is the piece being read. *)
Fixpoint split_newline (line : string) (s : string) : list string :=
  match s with
  | EmptyString => [line]
  | String a s' =>
      if is_newline a then line :: split_newline EmptyString s'
      else split_newline (line +:+ String a EmptyString) s'
  end.

(** The file branch of [get_votes], on the text [inp] read from the file. *)
Definition read_votes (inp : string) : list Vote.t :=
  Context.get_votes (map (split_space EmptyString) (split_newline EmptyString inp)).

(** A string without a space character, and one without a line feed. *)
Fixpoint spaceless (s : string) : bool :=
  match s with
  | EmptyString => true
  | String a s' => negb (is_space a) && spaceless s'
  end.

Fixpoint lineless (s : string) : bool :=
  match s with
  | EmptyString => true
  | String a s' => negb (is_newline a) && lineless s'
  end.

(** The words of a ballot separated by spaces, the ballots by line feeds. *)
Fixpoint unwords (ws : list string) : string :=
  match ws with
  | [] => EmptyString
  | [w] => w
  | w :: ws' => w +:+ String " " (unwords ws')
  end.

Fixpoint unlines (ls : list string) : string :=
  match ls with
  | [] => EmptyString
  | [l] => l
  | l :: ls' => l +:+ String "010" (unlines ls')
  end.

Definition word_ok (w : string) : bool :=
  negb (bool_decide (w = EmptyString)) && spaceless w.

(** ** Derived notions used in the statements *)

Definition names (ps : list Participant.t) : list string :=
  map Participant.name ps.

(** The references held by a list of participants. *)
Definition owned (ps : list Participant.t) : list nat :=
  ps ≫= Participant.votes.

(** The vote a reference points to exists and has a preference left. *)
Definition live (store : list Vote.t) (i : nat) : Prop :=
  ∃ v, store !! i = Some v ∧ Vote.prefs v ≠ [].

(** Sum of the weights of the votes behind a list of references. *)
Definition total_weight (store : list Vote.t) (l : list nat) : Q :=
  fold_left (λ ret i, ret + Vote.weight (Participant.vote_at store i))%Q l 0%Q.

(** The state at the end of round [n] of [election_loop] started on [c0]:
    round 0 is the initial assignment of the votes. *)
Inductive boundary (c0 : Context.t) : nat → Context.t → Prop :=
| boundary_start c :
    Context.assign_votes c0 = Ok c → boundary c0 0 c
| boundary_round n c c' :
    boundary c0 n c →
    Context.complete c = false →
    Context.election_phase c = Ok c' →
    boundary c0 (S n) c'.

(** Every first preference of a ballot names a candidate. *)
Definition known_first_choices (pnames : list string) (ballots : list (list string)) : Prop :=
  ∀ b p rest, b ∈ ballots → b = p :: rest → p ∈ pnames.

(** Fields and shape that [migrate] leaves alone. *)
Definition same_frame (c c' : Context.t) : Prop :=
  Context.seats c' = Context.seats c ∧
  Context.winners c' = Context.winners c ∧
  Context.eliminated c' = Context.eliminated c ∧
  Context.phase c' = Context.phase c ∧
  Context.quota c' = Context.quota c ∧
  names (Context.participants c') = names (Context.participants c) ∧
  length (Context.votes c') = length (Context.votes c).

(** Vote [i] has been migrated between [c] and [c']: its first preference
    is gone and its weight multiplied by [wcoef]; the following preferences
    that name nobody still running are gone too; it is held by the
    participant its new first preference names, or by nobody when it has
    no preference left. *)
Definition moved (wcoef : Q) (c : Context.t) (i : nat) (c' : Context.t) : Prop :=
  ∃ v v' p skipped,
    Context.votes c !! i = Some v ∧
    Context.votes c' !! i = Some v' ∧
    Vote.prefs v = p :: skipped ++ Vote.prefs v' ∧
    Forall (λ n, n ∉ names (Context.participants c)) skipped ∧
    (Vote.weight v' == Vote.weight v * wcoef)%Q ∧
    match Vote.prefs v' with
    | [] => i ∉ owned (Context.participants c')
    | n :: _ => ∃ k q,
        Context.find_participant (Context.participants c) (Some n) = Some k ∧
        Context.participants c' !! k = Some q ∧
        Participant.name q = n ∧
        i ∈ Participant.votes q
    end.

(** Invariant of the [for vote in source.votes] loop of [migrate] started
    on [c]: the votes [past] have been migrated, the votes [todo] are left. *)
Definition migrating (wcoef : Q) (c : Context.t) (past todo : list nat)
    (c' : Context.t) : Prop :=
  same_frame c c' ∧
  NoDup (todo ++ owned (Context.participants c')) ∧
  (∀ i, i ∈ todo ++ owned (Context.participants c') → live (Context.votes c') i) ∧
  (∀ i, i ∈ owned (Context.participants c') →
        i ∈ past ∨ i ∈ owned (Context.participants c)) ∧
  (∀ i, i ∉ past → Context.votes c' !! i = Context.votes c !! i) ∧
  (∀ i, i ∈ past → moved wcoef c i c').

(** No vote of the store has a negative weight. *)
Definition nonneg (store : list Vote.t) : Prop :=
  ∀ i v, store !! i = Some v → (0 <= Vote.weight v)%Q.

(** From store [s] to store [s'] the same vote objects exist and none has
    gained weight. *)
Definition fades (s s' : list Vote.t) : Prop :=
  length s' = length s ∧
  ∀ i v v', s !! i = Some v → s' !! i = Some v' →
            (Vote.weight v' <= Vote.weight v)%Q.

(** The votes of the participants still running are distinct objects and
    each has a preference left. *)
Definition sound (c : Context.t) : Prop :=
  NoDup (owned (Context.participants c)) ∧
  ∀ i, i ∈ owned (Context.participants c) → live (Context.votes c) i.

(** What a round does to the three lists of candidates, by name. *)
Inductive transition (c c' : Context.t) : Prop :=
| promoted n :
    names (Context.participants c) ≡ₚ n :: names (Context.participants c') →
    names (Context.winners c') = names (Context.winners c) ++ [n] →
    names (Context.eliminated c') = names (Context.eliminated c) →
    transition c c'
| dropped n :
    names (Context.participants c) ≡ₚ n :: names (Context.participants c') →
    names (Context.winners c') = names (Context.winners c) →
    names (Context.eliminated c') = names (Context.eliminated c) ++ [n] →
    Z.of_nat (length (Context.winners c) + length (Context.participants c'))
      ≠ Context.seats c →
    transition c c'
| filled n rest :
    names (Context.participants c) ≡ₚ n :: rest →
    Context.participants c' = [] →
    names (Context.winners c') = names (Context.winners c) ++ rest →
    names (Context.eliminated c') = names (Context.eliminated c) ++ [n] →
    Z.of_nat (length (Context.winners c) + length rest) = Context.seats c →
    transition c c'.

(** A context with one candidate and one ballot naming somebody else first. *)
Definition one_candidate : Context.t :=
  Context.mk [Participant.new "A"] 1 [Vote.new ["B"; "A"]] [] [] 0 1.

(** Two candidates, one seat, nobody at the quota. *)
Definition two_for_one_seat : Context.t :=
  Context.mk [Participant.mk "A" [0]; Participant.mk "B" [1; 2]] 1
    [Vote.new ["A"]; Vote.new ["B"]; Vote.new ["B"; "A"]] [] [] 0 3.

(** The list that holds the source of [migrate], and the other one. *)
Definition home_list (h : Context.home) (c : Context.t) : list Participant.t :=
  match h with
  | Context.in_winners => Context.winners c
  | Context.in_eliminated => Context.eliminated c
  end.

Definition other_list (h : Context.home) (c : Context.t) : list Participant.t :=
  match h with
  | Context.in_winners => Context.eliminated c
  | Context.in_eliminated => Context.winners c
  end.

(** Every reference held by a candidate, running or not. *)
Definition held (c : Context.t) : list nat :=
  owned (Context.participants c ++ Context.winners c ++ Context.eliminated c).

(** Executable test of [live] on a list of references. *)
Definition live_all (store : list Vote.t) (l : list nat) : bool :=
  forallb (λ i, match store !! i with
                | Some v => negb (Vote.is_white v)
                | None => false
                end) l.

(** A context in the middle of an election with [seats] seats that the
    rounds can carry on from: sound, positive quota, fewer winners than
    seats are still to be had from more candidates than seats. *)
Definition running (seats : Z) (c : Context.t) : Prop :=
  sound c ∧ (0 < Context.quota c)%Q ∧ Context.seats c = seats ∧
  (Z.of_nat (length (Context.winners c)) <= seats)%Z ∧
  (Z.of_nat (length (Context.winners c)) = seats ∨
   (seats < Z.of_nat (length (Context.winners c) + length (Context.participants c)))%Z).

(** Executable test of [known_first_choices]. *)
Definition first_choices_known (pnames : list string)
    (ballots : list (list string)) : bool :=
  forallb (λ b, match b with
                | [] => true
                | p :: _ => bool_decide (p ∈ pnames)
                end) ballots.

(** A context with more seats than candidates, all accounted for in the
    three lists. *)
Definition overbooked (seats : Z) (width : nat) (c : Context.t) : Prop :=
  sound c ∧ (0 < Context.quota c)%Q ∧ Context.seats c = seats ∧
  (length (Context.participants c) + length (Context.winners c)
     + length (Context.eliminated c))%nat = width ∧
  (Z.of_nat width < seats)%Z.

(** Executable test of [sound]. *)
Definition sound_check (c : Context.t) : bool :=
  bool_decide (NoDup (owned (Context.participants c)))
  && live_all (Context.votes c) (owned (Context.participants c)).

(** An election with three candidates, two seats and six ballots, four of
    them for A: as built by the constructor, after the initial assignment,
    and inside round 1 when [migrate] is called for the winner A. *)
Definition six_ballots : list (list string) :=
  [["A"; "B"]; ["A"; "B"]; ["A"; "C"]; ["A"]; ["B"]; ["C"]].

Definition six_election : Context.t :=
  Context.mk (Context.get_participants ["A"; "B"; "C"]) 2
    (Context.destroy_white_votes (Context.get_votes six_ballots)) [] [] 0 3.

Definition six_assigned : Context.t :=
  Context.set_participants
    [Participant.mk "A" [0; 1; 2; 3]; Participant.mk "B" [4]; Participant.mk "C" [5]]
    six_election.

Definition six_promoting : Context.t :=
  Context.mk [Participant.mk "B" [4]; Participant.mk "C" [5]] 2
    (Context.votes six_election) [Participant.mk "A" [0; 1; 2; 3]] [] 1 3.

(** From store [s] to store [s'] the same vote objects exist, each with
    the weight it had and with a final part of the preferences it had. *)
Definition wears (s s' : list Vote.t) : Prop :=
  length s' = length s ∧
  ∀ i v v', s !! i = Some v → s' !! i = Some v' →
            Vote.prefs v' `suffix_of` Vote.prefs v.

Definition same_weights (s s' : list Vote.t) : Prop :=
  length s' = length s ∧
  ∀ i v v', s !! i = Some v → s' !! i = Some v' →
            (Vote.weight v' == Vote.weight v)%Q.

(** Every vote held by a participant still running names that participant
    as its first preference. *)
Definition faithful (store : list Vote.t) (ps : list Participant.t) : Prop :=
  ∀ p i, p ∈ ps → i ∈ Participant.votes p →
    ∃ v, store !! i = Some v ∧ Vote.first_choice v = Some (Participant.name p).

(** From [ps] to [ps'] the participants are the same, each with the votes
    it held and possibly more after them. *)
Definition grows (ps ps' : list Participant.t) : Prop :=
  Forall2 (λ q q', Participant.name q' = Participant.name q ∧
                   Participant.votes q `prefix_of` Participant.votes q') ps ps'.

(** The participants of a list whose count of votes reaches the quota. *)
Definition at_quota (c : Context.t) : list Participant.t :=
  List.filter (λ p, Qle_bool (Context.quota c)
                      (Participant.count_votes (Context.votes c) p))
    (Context.participants c).

(** Sum of the counts of a list of participants. *)
Definition tally (store : list Vote.t) (ps : list Participant.t) : Q :=
  foldr (λ p acc, Participant.count_votes store p + acc)%Q 0%Q ps.

(** A context whose winners and participants still running are together
    fewer than the seats. *)
Definition short (c : Context.t) : Prop :=
  sound c ∧ (0 < Context.quota c)%Q ∧
  (Z.of_nat (length (Context.winners c) + length (Context.participants c))
     < Context.seats c)%Z.

(** The votes of a list that have a preference left in [store], and
    those that have none: after a migration, the votes passed on to a
    participant and the votes dropped. *)
Definition passed_on (store : list Vote.t) (l : list nat) : list nat :=
  List.filter (λ i, negb (Vote.is_white (Participant.vote_at store i))) l.

Definition exhausted (store : list Vote.t) (l : list nat) : list nat :=
  List.filter (λ i, Vote.is_white (Participant.vote_at store i)) l.

(** [wcoef = (no_of_votes - self.quota) / no_of_votes] for the winner
    [first] of a round on [c]. *)
Definition surplus_coefficient (c : Context.t) (first : Participant.t) : Q :=
  ((Participant.count_votes (Context.votes c) first - Context.quota c)
     / Participant.count_votes (Context.votes c) first)%Q.

(** * Properties *)

(** ** Loops *)

Lemma for_each_inv {A X} (body : A → X → result A)
    (P : list X → A → Prop) (Q : error → A → Prop) :
  (∀ a x l, P (x :: l) a →
     match body a x with Ok a' => P l a' | Raise e a' => Q e a' end) →
  ∀ l a, P l a →
    match for_each body l a with Ok a' => P [] a' | Raise e a' => Q e a' end.
Proof.
  intros Hbody l. induction l as [|x l IH]; intros a HP; simpl; [done|].
  specialize (Hbody a x l HP).
  destruct (body a x) as [a'|e a']; simpl; [by apply IH | done].
Qed.

(** ** find_participant *)

Lemma find_participant_names ps ps' nm :
  names ps = names ps' →
  Context.find_participant ps nm = Context.find_participant ps' nm.
Proof.
  revert ps'. induction ps as [|p ps IH]; intros [|p' ps'] H; try done.
  simpl in *. injection H as Hn Hr. rewrite Hn, (IH ps' Hr). done.
Qed.

Lemma find_participant_Some ps nm k :
  Context.find_participant ps nm = Some k →
  ∃ p, ps !! k = Some p ∧ Some (Participant.name p) = nm.
Proof.
  revert k. induction ps as [|p ps IH]; intros k H; simpl in *; [done|].
  case_decide.
  - injection H as <-. eauto.
  - destruct (Context.find_participant ps nm) as [j|] eqn:E; simpl in H; [|done].
    injection H as <-. destruct (IH j eq_refl) as (q & ? & ?). eauto.
Qed.

Lemma find_participant_None ps n :
  Context.find_participant ps (Some n) = None ↔ n ∉ names ps.
Proof.
  induction ps as [|p ps IH]; simpl.
  - split; [intros _; apply not_elem_of_nil | done].
  - rewrite not_elem_of_cons. case_decide as Hd.
    + split; [done|]. intros [Hne _]. congruence.
    + destruct (Context.find_participant ps (Some n)); simpl.
      * split; [done|]. intros [_ Hn]. by apply IH in Hn.
      * split; [|done]. intros _. split; [congruence | by apply IH].
Qed.

Lemma names_add_vote i k ps :
  names (alter (Participant.add_vote i) k ps) = names ps.
Proof.
  unfold names. revert k. induction ps as [|p ps IH]; intros [|k]; simpl; try done.
  f_equal. apply IH.
Qed.

Lemma owned_add_vote i k p ps :
  ps !! k = Some p →
  owned (alter (Participant.add_vote i) k ps) ≡ₚ i :: owned ps.
Proof.
  unfold owned. revert k. induction ps as [|q ps IH]; intros [|k] H; simpl in *; try done.
  - injection H as ->. rewrite <- app_assoc. simpl.
    rewrite <- Permutation_middle. done.
  - change (list_alter (Participant.add_vote i) k ps)
      with (alter (Participant.add_vote i) k ps).
    rewrite (IH k H). by rewrite Permutation_middle.
Qed.

(** ** The inner loop of migrate *)

(** What [cycle] does to the context: the preferences in [skipped] name
    nobody still running and are consumed; the vote keeps [final] and, when
    [final] is not empty, joins the participant its head names. *)
Lemma cycle_spec c i prefs w :
  ∃ skipped final w' ps',
    prefs = skipped ++ final ∧
    Forall (λ n, n ∉ names (Context.participants c)) skipped ∧
    (w' == w)%Q ∧
    Context.cycle c i prefs w =
      Context.set_participants ps'
        (Context.set_votes (<[i := Vote.mk final w']> (Context.votes c)) c) ∧
    match final with
    | [] => ps' = Context.participants c
    | n :: _ => ∃ k,
        Context.find_participant (Context.participants c) (Some n) = Some k ∧
        ps' = alter (Participant.add_vote i) k (Context.participants c)
    end.
Proof.
  revert w. induction prefs as [|p rest IH]; intros w; simpl.
  - exists [], [], w, (Context.participants c).
    split_and!; [done|constructor|reflexivity|done|done].
  - destruct (Context.find_participant (Context.participants c) (Some p)) as [k|] eqn:E.
    + exists [], (p :: rest), w, (alter (Participant.add_vote i) k (Context.participants c)).
      split_and!; [done|constructor|reflexivity|done|by exists k].
    + destruct (IH (w * 1)%Q) as (sk & fin & w' & ps' & -> & Hsk & Hw & -> & Hfin).
      exists (p :: sk), fin, w', ps'.
      split_and!; [done| |rewrite Hw; ring|done|done].
      constructor; [by apply find_participant_None | done].
Qed.

Lemma migrate_vote_live wcoef c i v p rest :
  Context.votes c !! i = Some v → Vote.prefs v = p :: rest →
  Context.migrate_vote wcoef c i =
    Ok (Context.cycle c i rest (Vote.weight v * wcoef)%Q).
Proof.
  intros Hi Hp. unfold Context.migrate_vote, Participant.vote_at, Vote.update.
  rewrite Hi. simpl. rewrite Hp. done.
Qed.

Lemma migrate_vote_white wcoef c i :
  Vote.prefs (Participant.vote_at (Context.votes c) i) = [] →
  Context.migrate_vote wcoef c i =
    Raise IndexError
      (Context.set_votes
         (<[i := Vote.mk [] (Vote.weight (Participant.vote_at (Context.votes c) i) * wcoef)%Q]>
            (Context.votes c)) c).
Proof.
  intros Hp. unfold Context.migrate_vote, Vote.update. simpl. rewrite Hp. done.
Qed.

(** ** The loop of migrate *)

Lemma owned_add_vote_elem i k ps j :
  j ∈ owned (alter (Participant.add_vote i) k ps) → j = i ∨ j ∈ owned ps.
Proof.
  unfold owned. revert k. induction ps as [|q ps IH]; intros [|k] H; simpl in *;
    try (by right).
  - rewrite <- app_assoc in H. apply elem_of_app in H as [H|H].
    + right. apply elem_of_app. by left.
    + apply elem_of_cons in H as [->|H]; [by left|]. right. apply elem_of_app. by right.
  - apply elem_of_app in H as [H|H].
    + right. apply elem_of_app. by left.
    + destruct (IH k H) as [?|?]; [by left|]. right. apply elem_of_app. by right.
Qed.

Lemma moved_stable wcoef c c1 c2 i j ps' v' :
  i ≠ j →
  Context.votes c2 = <[i := v']> (Context.votes c1) →
  Context.participants c2 = ps' →
  (ps' = Context.participants c1 ∨
   ∃ k, ps' = alter (Participant.add_vote i) k (Context.participants c1)) →
  moved wcoef c j c1 → moved wcoef c j c2.
Proof.
  intros Hne Hv Hp Hps (v & w & p & sk & Hc & Hc1 & Hpr & Hsk & Hw & Hm).
  exists v, w, p, sk. split_and!; try done.
  - rewrite Hv. by rewrite list_lookup_insert_ne.
  - destruct (Vote.prefs w) as [|n r].
    + rewrite Hp. destruct Hps as [->| [k ->]]; [done|].
      intros Hin. apply Hm.
      apply owned_add_vote_elem in Hin as [?|?]; [congruence|done].
    + destruct Hm as (k & q & Hf & Hk & Hn & Hi).
      rewrite Hp. destruct Hps as [->| [k' ->]]; [by exists k, q|].
      destruct (decide (k' = k)) as [->|Hkk].
      * exists k, (Participant.add_vote i q). split_and!; [done| |done|].
        -- rewrite list_lookup_alter. case_decide; [|done]. by rewrite Hk.
        -- simpl. apply elem_of_app. by left.
      * exists k, q. split_and!; try done. by rewrite list_lookup_alter_ne.
Qed.

Lemma migrating_step wcoef c past i todo c1 :
  i ∉ past →
  migrating wcoef c past (i :: todo) c1 →
  ∃ c2, Context.migrate_vote wcoef c1 i = Ok c2 ∧
        migrating wcoef c (past ++ [i]) todo c2.
Proof.
  intros Hnew (Hfr & Hnd & Hlive & Hsub & Hsame & Hmoved).
  destruct (Hlive i) as (v & Hv & Hpr); [by left|].
  destruct (Vote.prefs v) as [|p rest] eqn:Hprefs; [done|]. clear Hpr.
  rewrite (migrate_vote_live _ _ _ _ _ _ Hv Hprefs).
  destruct (cycle_spec c1 i rest (Vote.weight v * wcoef)%Q)
    as (sk & fin & w' & ps' & Hrest & Hsk & Hw & Hcyc & Hfin).
  rewrite Hcyc. eexists; split; [done|].
  set (c2 := Context.set_participants ps' _).
  assert (Hilt : (i < length (Context.votes c1))%nat) by by eapply lookup_lt_Some.
  assert (Hps' : ps' = Context.participants c1 ∨
     ∃ k, ps' = alter (Participant.add_vote i) k (Context.participants c1)).
  { destruct fin; [by left|]. destruct Hfin as (k & _ & ->). right. by exists k. }
  assert (Hnames : names ps' = names (Context.participants c1)).
  { destruct Hps' as [->|[k ->]]; [done|apply names_add_vote]. }
  simpl in Hnd. apply NoDup_cons in Hnd as [Hi Hnd].
  assert (Hown : ∀ j, j ∈ owned ps' →
            j ∈ owned (Context.participants c1) ∨ (j = i ∧ fin ≠ [])).
  { intros j Hj. destruct fin as [|n r]; [left; by rewrite <- Hfin|].
    destruct Hfin as (k & Hk & ->).
    destruct (find_participant_Some _ _ _ Hk) as (q & Hq & _).
    rewrite (owned_add_vote _ _ _ _ Hq) in Hj.
    apply elem_of_cons in Hj as [->|?]; [by right | by left]. }
  destruct Hfr as (? & ? & ? & ? & ? & Hn1 & Hl1).
  split_and!.
  - split_and!; simpl; try done; [congruence | by rewrite length_insert].
  - simpl. destruct fin as [|n r]; [by rewrite Hfin|].
    destruct Hfin as (k & Hk & ->).
    destruct (find_participant_Some _ _ _ Hk) as (q & Hq & _).
    rewrite (owned_add_vote _ _ _ _ Hq).
    rewrite <- Permutation_middle. by apply NoDup_cons.
  - intros j Hj. simpl in *. unfold live.
    destruct (decide (j = i)) as [->|Hji].
    + rewrite list_lookup_insert_eq by done. eexists; split; [done|]. simpl.
      apply elem_of_app in Hj as [Hj|Hj].
      * exfalso. apply Hi. apply elem_of_app. by left.
      * destruct (Hown _ Hj) as [Hj'|[_ ?]]; [|done].
        exfalso. apply Hi. apply elem_of_app. by right.
    + rewrite list_lookup_insert_ne by done. apply Hlive.
      right. apply elem_of_app in Hj as [Hj|Hj]; apply elem_of_app; [by left|].
      destruct (Hown _ Hj) as [?|[? _]]; [by right|done].
  - intros j Hj. simpl in Hj. destruct (Hown _ Hj) as [Hj'|[-> _]].
    + destruct (Hsub _ Hj') as [?|?]; [left|by right]. apply elem_of_app. by left.
    + left. apply elem_of_app. right. by left.
  - intros j Hj. simpl. rewrite list_lookup_insert_ne.
    + apply Hsame. intros ?. apply Hj. apply elem_of_app. by left.
    + intros ->. apply Hj. apply elem_of_app. right. by left.
  - intros j Hj. apply elem_of_app in Hj as [Hj|Hj].
    + eapply (moved_stable wcoef c c1 c2 i j); try done.
      * intros ->. done.
      * by apply Hmoved.
    + apply list_elem_of_singleton in Hj as ->.
      exists v, (Vote.mk fin w'), p, sk. simpl. split_and!.
      * by rewrite <- Hsame.
      * by rewrite list_lookup_insert_eq.
      * by rewrite Hprefs, Hrest.
      * by rewrite <- Hn1.
      * done.
      * destruct fin as [|n r].
        -- rewrite Hfin. intros ?. apply Hi. apply elem_of_app. by right.
        -- destruct Hfin as (k & Hk & ->).
           destruct (find_participant_Some _ _ _ Hk) as (q & Hq & Hqn).
           exists k, (Participant.add_vote i q). split_and!.
           ++ rewrite <- Hk. by apply find_participant_names.
           ++ rewrite list_lookup_alter. case_decide; [|done]. by rewrite Hq.
           ++ simpl. congruence.
           ++ simpl. apply elem_of_app. right. by left.
Qed.

Lemma migrating_start wcoef c l :
  NoDup (l ++ owned (Context.participants c)) →
  (∀ i, i ∈ l ++ owned (Context.participants c) → live (Context.votes c) i) →
  migrating wcoef c [] l c.
Proof.
  intros Hnd Hlive. split_and!; try done.
  - intros i ?. by right.
  - intros i Hi. by apply elem_of_nil in Hi.
Qed.

(** The loop of [migrate] runs to its end when the votes of the source
    and of the participants still running are distinct objects with a
    preference left, and it migrates every vote of the source. *)
Lemma migrate_votes_spec wcoef l c :
  NoDup (l ++ owned (Context.participants c)) →
  (∀ i, i ∈ l ++ owned (Context.participants c) → live (Context.votes c) i) →
  ∃ c', for_each (Context.migrate_vote wcoef) l c = Ok c' ∧
        migrating wcoef c l [] c'.
Proof.
  intros Hnd Hlive.
  assert (Hl : NoDup l) by (apply NoDup_app in Hnd; tauto).
  pose proof (for_each_inv (Context.migrate_vote wcoef)
    (λ todo c', ∃ past, l = past ++ todo ∧ migrating wcoef c past todo c')
    (λ _ _, False)) as Hloop.
  assert (Hstart : ∃ past, l = past ++ l ∧ migrating wcoef c past l c).
  { exists []. split; [done | by apply migrating_start]. }
  apply Hloop in Hstart.
  - destruct (for_each (Context.migrate_vote wcoef) l c) as [c'|e c']; [|done].
    exists c'. split; [done|]. destruct Hstart as (past & Hd & Hm).
    rewrite app_nil_r in Hd. by subst.
  - intros a x todo (past & -> & Hm).
    destruct (migrating_step wcoef c past x todo a) as (c2 & -> & Hm2); [|done|].
    + apply NoDup_app in Hl as (_ & Hdisj & _). intros Hx.
      apply (Hdisj _ Hx). by left.
    + exists (past ++ [x]). split; [by rewrite <- app_assoc | done].
Qed.

(** ** What migrate leaves alone, whatever the state and the outcome *)

Lemma same_frame_refl c : same_frame c c.
Proof. by split_and!. Qed.

Lemma same_frame_trans c1 c2 c3 :
  same_frame c1 c2 → same_frame c2 c3 → same_frame c1 c3.
Proof.
  intros (? & ? & ? & ? & ? & ? & ?) (? & ? & ? & ? & ? & ? & ?).
  split_and!; congruence.
Qed.

(** One turn of the loop writes one vote object, with the weight of that
    object multiplied by the coefficient. *)
Lemma migrate_vote_store wcoef c i :
  ∃ v', Context.votes (state_of (Context.migrate_vote wcoef c i))
          = <[i := v']> (Context.votes c) ∧
        (Vote.weight v' ==
           Vote.weight (Participant.vote_at (Context.votes c) i) * wcoef)%Q.
Proof.
  destruct (Vote.prefs (Participant.vote_at (Context.votes c) i)) as [|p rest] eqn:Hp.
  - rewrite migrate_vote_white by done. simpl. eexists; split; [done|]. simpl. reflexivity.
  - unfold Context.migrate_vote, Vote.update. simpl. rewrite Hp. simpl.
    destruct (cycle_spec c i rest
                (Vote.weight (Participant.vote_at (Context.votes c) i) * wcoef)%Q)
      as (sk & fin & w' & ps' & _ & _ & Hw & -> & _).
    simpl. eexists; split; [done|]. done.
Qed.

Lemma migrate_vote_frame wcoef c i :
  same_frame c (state_of (Context.migrate_vote wcoef c i)).
Proof.
  destruct (Vote.prefs (Participant.vote_at (Context.votes c) i)) as [|p rest] eqn:Hp.
  - rewrite migrate_vote_white by done. simpl.
    split_and!; simpl; try done. by rewrite length_insert.
  - unfold Context.migrate_vote, Vote.update. simpl. rewrite Hp. simpl.
    destruct (cycle_spec c i rest
                (Vote.weight (Participant.vote_at (Context.votes c) i) * wcoef)%Q)
      as (sk & fin & w' & ps' & _ & _ & _ & -> & Hfin).
    split_and!; simpl; try done; [|by rewrite length_insert].
    destruct fin as [|n r]; [by rewrite Hfin|].
    destruct Hfin as (k & _ & ->). apply names_add_vote.
Qed.

Lemma migrate_votes_frame wcoef l c :
  same_frame c (state_of (for_each (Context.migrate_vote wcoef) l c)).
Proof.
  pose proof (for_each_inv (Context.migrate_vote wcoef)
    (λ _ c', same_frame c c') (λ _, same_frame c)) as Hloop.
  specialize (Hloop) with (l := l) (a := c).
  destruct (for_each (Context.migrate_vote wcoef) l c) as [c'|e c']; simpl;
    apply Hloop; try apply same_frame_refl;
    intros a x _ Ha; pose proof (migrate_vote_frame wcoef a x) as Hf;
    destruct (Context.migrate_vote wcoef a x) as [a'|e' a']; simpl in Hf;
    by eapply same_frame_trans.
Qed.

Lemma names_alter_last f l :
  (∀ p, Participant.name (f p) = Participant.name p) →
  names (Context.alter_last f l) = names l.
Proof.
  intros Hf. unfold Context.alter_last, names. generalize (pred (length l)).
  induction l as [|p l IH]; intros [|k]; simpl; try done.
  - by rewrite Hf.
  - f_equal. apply IH.
Qed.

Lemma alter_last_snoc {A} (f : A → A) l x :
  Context.alter_last f (l ++ [x]) = l ++ [f x].
Proof.
  unfold Context.alter_last. rewrite length_app. simpl.
  replace (pred (length l + 1)) with (length l + 0)%nat by lia.
  by rewrite alter_app_r.
Qed.

(** ** Weights along migrate *)

Lemma fades_refl s : fades s s.
Proof. split; [done|]. intros i v v' H1 H2. rewrite H1 in H2. injection H2 as ->. apply Qle_refl. Qed.

Lemma fades_trans s1 s2 s3 : fades s1 s2 → fades s2 s3 → fades s1 s3.
Proof.
  intros [Hl1 H1] [Hl2 H2]. split; [congruence|].
  intros i v v' Hv Hv'.
  destruct (s2 !! i) as [u|] eqn:Hu.
  - eapply Qle_trans; [by eapply H2 | by eapply H1].
  - apply lookup_ge_None in Hu. apply lookup_lt_Some in Hv. lia.
Qed.

Lemma migrate_vote_fades wcoef c i :
  (0 <= wcoef)%Q → (wcoef <= 1)%Q → nonneg (Context.votes c) →
  nonneg (Context.votes (state_of (Context.migrate_vote wcoef c i))) ∧
  fades (Context.votes c) (Context.votes (state_of (Context.migrate_vote wcoef c i))).
Proof.
  intros H0 H1 Hnn.
  destruct (migrate_vote_store wcoef c i) as (v' & -> & Hw).
  unfold Participant.vote_at in Hw.
  destruct (Context.votes c !! i) as [v|] eqn:Hv.
  - simpl in Hw. pose proof (Hnn _ _ Hv) as Hv0. split.
    + intros j u Hj. destruct (decide (i = j)) as [->|Hne].
      * rewrite list_lookup_insert_eq in Hj by by eapply lookup_lt_Some.
        injection Hj as <-. rewrite Hw. nra.
      * rewrite list_lookup_insert_ne in Hj by done. by eapply Hnn.
    + split; [by rewrite length_insert|]. intros j u u' Hu Hu'.
      destruct (decide (i = j)) as [->|Hne].
      * rewrite list_lookup_insert_eq in Hu' by by eapply lookup_lt_Some.
        injection Hu' as <-. rewrite Hv in Hu. injection Hu as <-. rewrite Hw. nra.
      * rewrite list_lookup_insert_ne in Hu' by done.
        rewrite Hu in Hu'. injection Hu' as ->. apply Qle_refl.
  - rewrite list_insert_ge by by apply lookup_ge_None.
    split; [done | apply fades_refl].
Qed.

Lemma migrate_votes_fades wcoef l c :
  (0 <= wcoef)%Q → (wcoef <= 1)%Q → nonneg (Context.votes c) →
  nonneg (Context.votes (state_of (for_each (Context.migrate_vote wcoef) l c))) ∧
  fades (Context.votes c)
        (Context.votes (state_of (for_each (Context.migrate_vote wcoef) l c))).
Proof.
  intros H0 H1 Hnn.
  pose proof (for_each_inv (Context.migrate_vote wcoef)
    (λ _ c', nonneg (Context.votes c') ∧ fades (Context.votes c) (Context.votes c'))
    (λ _ c', nonneg (Context.votes c') ∧ fades (Context.votes c) (Context.votes c')))
    as Hloop.
  specialize (Hloop) with (l := l) (a := c).
  destruct (for_each (Context.migrate_vote wcoef) l c) as [c'|e c']; simpl;
    apply Hloop; try (split; [done | apply fades_refl]);
    intros a x _ [Ha Hf];
    destruct (migrate_vote_fades wcoef a x H0 H1 Ha) as [Hn' Hf'];
    destruct (Context.migrate_vote wcoef a x) as [a'|e' a']; simpl in *;
    (split; [done | by eapply fades_trans]).
Qed.

(** ** Sorting and popping *)

Lemma insert_desc_perm key p l : Context.insert_desc key p l ≡ₚ p :: l.
Proof.
  induction l as [|q l IH]; simpl; [done|].
  destruct (Qle_bool (key q) (key p)); [done|].
  rewrite IH. apply perm_swap.
Qed.

Lemma sort_desc_perm key l : Context.sort_desc key l ≡ₚ l.
Proof.
  induction l as [|p l IH]; simpl; [done|].
  by rewrite insert_desc_perm, IH.
Qed.

Lemma pop_last_snoc p l last others :
  Context.pop_last p l = (last, others) → p :: l = others ++ [last].
Proof.
  unfold Context.pop_last. intros H. injection H as <- <-.
  replace (List.last l p) with (List.last (p :: l) p) by by destruct l.
  by apply app_removelast_last.
Qed.

(** ** migrate as a whole *)

Lemma migrate_Ok c h source wcoef c' :
  Context.migrate c h source wcoef = Ok c' →
  ∃ c1, for_each (Context.migrate_vote wcoef) (Participant.votes source) c = Ok c1 ∧
        c' = Context.clear_source h c1.
Proof.
  unfold Context.migrate.
  destruct (for_each _ _ c) as [c1|e c1]; simpl; [|done].
  intros H. injection H as <-. by exists c1.
Qed.

Lemma clear_source_frame h c :
  Context.seats (Context.clear_source h c) = Context.seats c ∧
  Context.phase (Context.clear_source h c) = Context.phase c ∧
  Context.quota (Context.clear_source h c) = Context.quota c ∧
  Context.votes (Context.clear_source h c) = Context.votes c ∧
  Context.participants (Context.clear_source h c) = Context.participants c ∧
  names (Context.winners (Context.clear_source h c)) = names (Context.winners c) ∧
  names (Context.eliminated (Context.clear_source h c)) = names (Context.eliminated c).
Proof.
  destruct h; simpl; split_and!; try done; by apply names_alter_last.
Qed.

Lemma migrate_frame c h source wcoef c' :
  Context.migrate c h source wcoef = Ok c' →
  Context.seats c' = Context.seats c ∧
  Context.phase c' = Context.phase c ∧
  Context.quota c' = Context.quota c ∧
  length (Context.votes c') = length (Context.votes c) ∧
  names (Context.participants c') = names (Context.participants c) ∧
  names (Context.winners c') = names (Context.winners c) ∧
  names (Context.eliminated c') = names (Context.eliminated c).
Proof.
  intros (c1 & Hloop & ->)%migrate_Ok.
  pose proof (migrate_votes_frame wcoef (Participant.votes source) c) as Hf.
  rewrite Hloop in Hf. simpl in Hf.
  destruct Hf as (? & Hw & He & ? & ? & ? & ?).
  destruct (clear_source_frame h c1) as (-> & -> & -> & -> & -> & -> & ->).
  split_and!; congruence.
Qed.

Lemma migrate_votes_of c h source wcoef :
  Context.votes (state_of (Context.migrate c h source wcoef)) =
  Context.votes (state_of (for_each (Context.migrate_vote wcoef)
                             (Participant.votes source) c)).
Proof.
  unfold Context.migrate.
  destruct (for_each _ _ c) as [c1|e c1]; simpl; [|done].
  by destruct h.
Qed.

Lemma migrate_sound c h source wcoef :
  NoDup (Participant.votes source ++ owned (Context.participants c)) →
  (∀ i, i ∈ Participant.votes source ++ owned (Context.participants c) →
        live (Context.votes c) i) →
  ∃ c', Context.migrate c h source wcoef = Ok c' ∧ sound c'.
Proof.
  intros Hnd Hlive.
  destruct (migrate_votes_spec wcoef _ c Hnd Hlive) as (c1 & Hloop & Hm).
  exists (Context.clear_source h c1). unfold Context.migrate. rewrite Hloop.
  split; [done|]. destruct Hm as (_ & Hnd1 & Hlive1 & _).
  destruct (clear_source_frame h c1) as (_ & _ & _ & Hv & Hp & _).
  unfold sound. by rewrite Hv, Hp.
Qed.

(** ** One round *)

Lemma names_sort key l : names (Context.sort_desc key l) ≡ₚ names l.
Proof. unfold names. by rewrite sort_desc_perm. Qed.

Lemma owned_sort key l : owned (Context.sort_desc key l) ≡ₚ owned l.
Proof. unfold owned. by rewrite sort_desc_perm. Qed.

Lemma names_length l : length (names l) = length l.
Proof. apply length_map. Qed.

Lemma names_app l k : names (l ++ k) = names l ++ names k.
Proof. apply map_app. Qed.

Lemma owned_app l k : owned (l ++ k) = owned l ++ owned k.
Proof. apply bind_app. Qed.

(** The three ways through [election_phase], with the tests of the code
    turned into propositions. *)
Lemma election_phase_cases c :
  let sorted := Context.sort_desc (Participant.count_votes (Context.votes c))
                  (Context.participants c) in
  let c0 := Context.set_participants sorted
              (Context.set_phase (S (Context.phase c)) c) in
  (sorted = [] ∧ Context.election_phase c = Raise IndexError c0) ∨
  (∃ first rest,
     sorted = first :: rest ∧
     (Context.quota c <= Participant.count_votes (Context.votes c) first)%Q ∧
     let v := Participant.count_votes (Context.votes c) first in
     let c1 := Context.set_participants rest
                 (Context.set_winners (Context.winners c ++ [first]) c0) in
     ((v == 0)%Q ∧ Context.election_phase c = Raise ZeroDivisionError c1) ∨
     (¬ (v == 0)%Q ∧
      Context.election_phase c =
        Context.migrate c1 Context.in_winners first ((v - Context.quota c) / v)%Q)) ∨
  (∃ first others last,
     sorted = others ++ [last] ∧ head sorted = Some first ∧
     (Participant.count_votes (Context.votes c) first < Context.quota c)%Q ∧
     let c1 := Context.set_eliminated (Context.eliminated c ++ [last])
                 (Context.set_participants others c0) in
     (Z.of_nat (length (Context.winners c) + length others) = Context.seats c ∧
      Context.election_phase c =
        Context.migrate
          (Context.set_participants []
             (Context.set_winners (Context.winners c ++ others) c1))
          Context.in_eliminated last 1%Q) ∨
     (Z.of_nat (length (Context.winners c) + length others) ≠ Context.seats c ∧
      Context.election_phase c = Context.migrate c1 Context.in_eliminated last 1%Q)).
Proof.
  cbv zeta. unfold Context.election_phase.
  change (Context.votes (Context.set_phase _ c)) with (Context.votes c).
  change (Context.participants (Context.set_phase _ c)) with (Context.participants c).
  change (Context.participants (Context.set_participants ?l _)) with l.
  destruct (Context.sort_desc _ _) as [|first rest]; [by left|]. right.
  change (Context.quota (Context.set_participants _ _)) with (Context.quota c).
  change (Context.votes (Context.set_participants _ _)) with (Context.votes c).
  destruct (Qle_bool _ _) eqn:Hq.
  - left. exists first, rest. apply Qle_bool_iff in Hq. split_and!; [done..|].
    cbv zeta. change (Context.votes (Context.set_participants _ _)) with (Context.votes c).
    change (Context.quota (Context.set_participants _ _)) with (Context.quota c).
    destruct (Qeq_bool _ _) eqn:Hz.
    + left. apply Qeq_bool_iff in Hz. done.
    + right. split; [|done]. intros Hz'. apply Qeq_bool_iff in Hz'. congruence.
  - right. destruct (Context.pop_last first rest) as [last others] eqn:Hpop.
    apply pop_last_snoc in Hpop. exists first, others, last.
    split_and!; [done|done| |].
    + apply Qnot_le_lt. intros Hle. apply Qle_bool_iff in Hle. congruence.
    + cbv zeta.
      change (Context.winners (Context.set_eliminated _ _)) with (Context.winners c).
      change (Context.participants (Context.set_eliminated _ _)) with others.
      change (Context.seats (Context.set_eliminated _ _)) with (Context.seats c).
      destruct (Z.of_nat _ =? _)%Z eqn:Hfill.
      * left. apply Z.eqb_eq in Hfill. done.
      * right. apply Z.eqb_neq in Hfill. done.
Qed.

Lemma election_phase_transition c c' :
  Context.election_phase c = Ok c' →
  transition c c' ∧
  Context.seats c' = Context.seats c ∧
  Context.quota c' = Context.quota c ∧
  Context.phase c' = S (Context.phase c) ∧
  length (Context.votes c') = length (Context.votes c).
Proof.
  pose proof (names_sort (Participant.count_votes (Context.votes c))
                (Context.participants c)) as Hperm.
  destruct (election_phase_cases c)
    as [[_ ->]|[(first & rest & Hs & _ & [[_ ->]|[_ ->]])
               |(first & others & last & Hs & _ & _ & [[Hfill ->]|[Hfill ->]])]];
    try done; rewrite Hs in Hperm;
    intros (? & ? & ? & ? & Hp & Hw & He)%migrate_frame; simpl in *;
    (split_and!; [|done..]).
  - apply promoted with (Participant.name first).
    + by rewrite Hp, <- Hperm.
    + by rewrite Hw, names_app.
    + done.
  - rewrite names_app in Hperm. simpl in Hperm.
    rewrite <- Permutation_cons_append in Hperm.
    apply filled with (Participant.name last) (names others).
    + done.
    + by apply map_eq_nil in Hp.
    + by rewrite Hw, names_app.
    + by rewrite He, names_app.
    + by rewrite names_length.
  - rewrite names_app in Hperm. simpl in Hperm.
    rewrite <- Permutation_cons_append in Hperm.
    apply dropped with (Participant.name last).
    + by rewrite Hp.
    + done.
    + by rewrite He, names_app.
    + rewrite <- (names_length (Context.participants c')), Hp.
      by rewrite names_length.
Qed.

Lemma election_phase_sound c :
  sound c → (0 < Context.quota c)%Q → Context.participants c ≠ [] →
  ∃ c', Context.election_phase c = Ok c' ∧ sound c'.
Proof.
  intros [Hnd Hlive] Hq Hne.
  pose proof (owned_sort (Participant.count_votes (Context.votes c))
                (Context.participants c)) as Hperm.
  assert (Hs0 : Context.sort_desc (Participant.count_votes (Context.votes c))
                  (Context.participants c) ≠ []).
  { intros Hs. pose proof (sort_desc_perm (Participant.count_votes (Context.votes c))
                (Context.participants c)) as Hp. rewrite Hs in Hp.
    by apply Permutation_nil_l in Hp. }
  destruct (election_phase_cases c)
    as [[? _]|[(first & rest & Hs & Hv & [[Hz _]|[_ ->]])
               |(first & others & last & Hs & _ & _ & [[_ ->]|[_ ->]])]];
    try done.
  - exfalso. rewrite Hz in Hv. by apply Qle_not_lt in Hv.
  - apply migrate_sound; simpl; rewrite Hs in Hperm; simpl in Hperm.
    + by rewrite Hperm.
    + intros i Hi. apply Hlive. by rewrite <- Hperm.
  - rewrite Hs, owned_app in Hperm. simpl in Hperm.
    rewrite app_nil_r in Hperm.
    apply migrate_sound; simpl; rewrite app_nil_r.
    + rewrite <- Hperm in Hnd. apply NoDup_app in Hnd. tauto.
    + intros i Hi. apply Hlive. rewrite <- Hperm. apply elem_of_app. by right.
  - rewrite Hs, owned_app in Hperm. simpl in Hperm.
    rewrite app_nil_r in Hperm.
    apply migrate_sound; simpl.
    + rewrite <- Hperm in Hnd. by rewrite Permutation_app_comm.
    + intros i Hi. apply Hlive. rewrite <- Hperm.
      by rewrite Permutation_app_comm.
Qed.

Lemma migrate_fades c c1 h source wcoef :
  Context.votes c1 = Context.votes c →
  (0 <= wcoef)%Q → (wcoef <= 1)%Q → nonneg (Context.votes c) →
  nonneg (Context.votes (state_of (Context.migrate c1 h source wcoef))) ∧
  fades (Context.votes c) (Context.votes (state_of (Context.migrate c1 h source wcoef))).
Proof.
  intros <- H0 H1 Hnn. rewrite migrate_votes_of. by apply migrate_votes_fades.
Qed.

Lemma election_phase_fades c :
  (0 < Context.quota c)%Q → nonneg (Context.votes c) →
  nonneg (Context.votes (state_of (Context.election_phase c))) ∧
  fades (Context.votes c) (Context.votes (state_of (Context.election_phase c))).
Proof.
  intros Hq Hnn.
  destruct (election_phase_cases c)
    as [[_ ->]|[(first & rest & Hs & Hv & [[_ ->]|[Hz ->]])
               |(first & others & last & Hs & _ & _ & [[_ ->]|[_ ->]])]];
    simpl; try (split; [done | apply fades_refl]);
    apply migrate_fades; try done.
  - apply Qle_shift_div_l; lra.
  - apply Qle_shift_div_r; lra.
Qed.

(** ** Construction and initial assignment *)

Lemma imap_pair_fst {A} (l : list A) k :
  (imap (λ i, pair (k + i)%nat) l).*1 = seq k (length l).
Proof.
  revert k. induction l as [|x l IH]; intros k; simpl; [done|].
  f_equal; [f_equal; lia|].
  rewrite <- (IH (S k)). f_equal. apply imap_ext. intros i y _. simpl. f_equal. lia.
Qed.

Lemma imap_pair_refs {A} (l : list A) : (imap pair l).*1 = seq 0 (length l).
Proof. exact (imap_pair_fst l 0). Qed.

Lemma compute_quota_pos nvotes seats :
  (0 <= seats)%Z → (1 <= Context.compute_quota nvotes seats)%Q.
Proof.
  intros Hs. unfold Context.compute_quota. cbv zeta.
  eapply Qle_trans; [|apply Qle_ceiling].
  assert (0 <= inject_Z (Z.of_nat nvotes) / inject_Z (seats + 1))%Q; [|lra].
  apply Qle_shift_div_l.
  - change 0%Q with (inject_Z 0). rewrite <- Zlt_Qlt. lia.
  - rewrite Qmult_0_l. change 0%Q with (inject_Z 0). rewrite <- Zle_Qle. lia.
Qed.

Lemma init_inr pnames seats ballots c :
  Context.init pnames seats ballots = inr c →
  c = Context.mk (Context.get_participants pnames) seats
        (Context.destroy_white_votes (Context.get_votes ballots)) [] [] 0
        (Context.compute_quota
           (length (Context.destroy_white_votes (Context.get_votes ballots))) seats).
Proof.
  unfold Context.init. destruct (Context.fits_float seats); [|done]. simpl.
  destruct (seats + 1 =? 0)%Z; [done|]. congruence.
Qed.

Lemma names_get_participants pnames :
  names (Context.get_participants pnames) = pnames.
Proof.
  unfold names, Context.get_participants. rewrite map_map. simpl. apply map_id.
Qed.

Lemma owned_get_participants pnames :
  owned (Context.get_participants pnames) = [].
Proof. unfold owned. by induction pnames. Qed.

Lemma destroy_white_votes_live ballots i v :
  Context.destroy_white_votes (Context.get_votes ballots) !! i = Some v →
  Vote.prefs v ≠ [] ∧ (Vote.weight v == 1)%Q ∧ Vote.prefs v ∈ ballots.
Proof.
  intros Hi. apply list_elem_of_lookup_2, list_elem_of_In in Hi.
  unfold Context.destroy_white_votes in Hi. apply filter_In in Hi as [Hin Hw].
  unfold Context.get_votes in Hin. apply in_map_iff in Hin as (b & <- & Hb).
  simpl in *. split_and!; [|done|by apply list_elem_of_In].
  unfold Vote.is_white in Hw. simpl in Hw. by destruct b.
Qed.

Lemma assign_votes_frame c r :
  Context.assign_votes c = r →
  ∃ ps, state_of r = Context.set_participants ps c ∧
        names ps = names (Context.participants c).
Proof.
  unfold Context.assign_votes. intros <-.
  pose proof (for_each_inv Context.assign_vote
    (λ _ ps, names ps = names (Context.participants c))
    (λ _ ps, names ps = names (Context.participants c))) as Hloop.
  specialize (Hloop) with (l := imap pair (Context.votes c)) (a := Context.participants c).
  destruct (for_each _ _ _) as [ps|e ps]; exists ps; (split; [done|]);
    apply Hloop; try done; intros a [i v] _ Ha; unfold Context.assign_vote; simpl;
    (destruct (Context.find_participant a _); [|done]); by rewrite names_add_vote.
Qed.

Lemma assign_votes_sound c c1 :
  Context.assign_votes c = Ok c1 →
  owned (Context.participants c) = [] →
  (∀ i v, Context.votes c !! i = Some v → Vote.prefs v ≠ []) →
  sound c1.
Proof.
  unfold Context.assign_votes. intros Hc1 Hown Hlive.
  pose proof (for_each_inv Context.assign_vote
    (λ todo ps, NoDup (todo.*1 ++ owned ps) ∧
                ∀ i, i ∈ todo.*1 ++ owned ps → (i < length (Context.votes c))%nat)
    (λ _ _, True)) as Hloop.
  specialize (Hloop) with (l := imap pair (Context.votes c)) (a := Context.participants c).
  destruct (for_each _ _ _) as [ps|e ps]; [|done]. injection Hc1 as <-.
  destruct Hloop as [Hnd Hlt].
  - intros a [i v] todo [Hnd Hlt]. unfold Context.assign_vote. simpl.
    destruct (Context.find_participant a _) as [k|] eqn:Hk; [|done].
    destruct (find_participant_Some _ _ _ Hk) as (q & Hq & _).
    split.
    + rewrite (owned_add_vote _ _ _ _ Hq). by rewrite <- Permutation_middle.
    + intros j Hj. apply Hlt. simpl. apply elem_of_app in Hj as [Hj|Hj].
      * right. apply elem_of_app. by left.
      * apply owned_add_vote_elem in Hj as [->|Hj]; [by left|].
        right. apply elem_of_app. by right.
  - rewrite Hown, app_nil_r, imap_pair_refs. split; [apply NoDup_seq|].
    intros i Hi. apply elem_of_seq in Hi. lia.
  - simpl in *. split; [done|]. intros i Hi.
    destruct (lookup_lt_is_Some_2 _ _ (Hlt i Hi)) as [v Hv].
    exists v. split; [done|]. by eapply Hlive.
Qed.

Lemma assign_votes_Ok c :
  (∀ i v, Context.votes c !! i = Some v →
          ∃ p rest, Vote.prefs v = p :: rest ∧ p ∈ names (Context.participants c)) →
  ∃ c1, Context.assign_votes c = Ok c1.
Proof.
  unfold Context.assign_votes. intros Hknown.
  pose proof (for_each_inv Context.assign_vote
    (λ todo ps, names ps = names (Context.participants c) ∧
                ∀ iv, iv ∈ todo → Context.votes c !! iv.1 = Some iv.2)
    (λ _ _, False)) as Hloop.
  specialize (Hloop) with (l := imap pair (Context.votes c)) (a := Context.participants c).
  destruct (for_each _ _ _) as [ps|e ps]; [by eexists|]. exfalso. apply Hloop.
  - intros a [i v] todo [Hn Hin]. unfold Context.assign_vote. simpl.
    destruct (Hknown i v) as (p & rest & Hp & Hpn); [apply (Hin (i, v)); by left|].
    unfold Vote.first_choice. rewrite Hp.
    destruct (Context.find_participant a (Some p)) as [k|] eqn:Hk.
    + rewrite names_add_vote. split; [done|]. intros iv Hiv. apply Hin. by right.
    + apply find_participant_None in Hk. by rewrite Hn in Hk.
  - split; [done|]. intros [i v] (j & y & [= -> ->] & Hy)%elem_of_lookup_imap. done.
Qed.

(** ** Claims about a single vote *)

(** C9. [update] called on a vote that has no preference left raises
    IndexError, and the vote it leaves behind has kept its empty list of
    preferences while its weight has already been multiplied by the
    coefficient. *)
Theorem update_white_not_atomic (v : Vote.t) (wcoef : Q) :
  Vote.is_white v = true →
  Vote.update wcoef v = Raise IndexError (Vote.mk [] (Vote.weight v * wcoef)).
Proof.
  unfold Vote.is_white, Vote.update. simpl.
  destruct (Vote.prefs v); [done | discriminate].
Qed.

Lemma update_white_not_atomic_witness :
  Vote.is_white (Vote.mk [] 1) = true ∧
  Vote.update (1 # 2) (Vote.mk [] 1) = Raise IndexError (Vote.mk [] (1 * (1 # 2))).
Proof.
  split; [reflexivity|].
  apply (update_white_not_atomic (Vote.mk [] 1) (1 # 2)). reflexivity.
Defined.

(** ** Claims about the initial assignment *)

Lemma assign_vote_unknown ps a ju l i v p rest :
  Vote.prefs v = p :: rest → p ∉ names ps →
  names a = names ps ∧ (i, v) ∈ ju :: l →
  match Context.assign_vote a ju with
  | Ok a' => names a' = names ps ∧ (i, v) ∈ l
  | Raise e _ => e = AttributeError
  end.
Proof.
  intros Hp Hun [Hn Hj]. unfold Context.assign_vote.
  destruct (Context.find_participant a _) as [k|] eqn:Hk; [|done].
  rewrite names_add_vote. split; [done|].
  apply elem_of_cons in Hj as [<-|Hj]; [|done]. simpl in Hk.
  unfold Vote.first_choice in Hk. rewrite Hp in Hk.
  rewrite <- Hn in Hun. apply find_participant_None in Hun. congruence.
Qed.

Lemma assign_unknown todo ps i v p rest :
  (i, v) ∈ todo → Vote.prefs v = p :: rest → p ∉ names ps →
  ∃ ps', for_each Context.assign_vote todo ps = Raise AttributeError ps'.
Proof.
  intros Hin Hp Hun.
  pose proof (for_each_inv Context.assign_vote
    (λ todo ps', names ps' = names ps ∧ (i, v) ∈ todo)
    (λ e _, e = AttributeError)
    (λ a ju l, assign_vote_unknown ps a ju l i v p rest Hp Hun)
    todo ps (conj eq_refl Hin)) as Hloop.
  destruct (for_each _ _ _) as [ps'|e ps'].
  - destruct Hloop as [_ Hnil]. by apply elem_of_nil in Hnil.
  - subst e. by exists ps'.
Qed.

(** C10. When some vote of the context has a first preference that is the
    name of no participant, [election_loop] raises AttributeError during the
    initial assignment: no round runs (the phase counter, the winners, the
    eliminated and every vote are as before). *)
Theorem unknown_first_choice_raises (c : Context.t) (i : nat) (v : Vote.t)
    (p : string) (rest : list string) (fuel : nat) :
  Context.votes c !! i = Some v →
  Vote.prefs v = p :: rest →
  p ∉ names (Context.participants c) →
  ∃ c', Context.election_loop fuel c = Some (Raise AttributeError c') ∧
        Context.phase c' = Context.phase c ∧
        Context.winners c' = Context.winners c ∧
        Context.eliminated c' = Context.eliminated c ∧
        Context.votes c' = Context.votes c.
Proof.
  intros Hi Hp Hun. unfold Context.election_loop, Context.assign_votes.
  destruct (assign_unknown (imap pair (Context.votes c)) (Context.participants c)
              i v p rest) as [ps' ->]; try done.
  - apply elem_of_lookup_imap. by exists i, v.
  - by eexists.
Qed.

Lemma unknown_first_choice_raises_witness :
  Context.votes one_candidate !! O = Some (Vote.new ["B"; "A"]) ∧
  Vote.prefs (Vote.new ["B"; "A"]) = "B" :: ["A"] ∧
  ("B" ∉ names (Context.participants one_candidate)) ∧
  ∃ c', Context.election_loop 3 one_candidate = Some (Raise AttributeError c') ∧
        Context.phase c' = Context.phase one_candidate ∧
        Context.winners c' = Context.winners one_candidate ∧
        Context.eliminated c' = Context.eliminated one_candidate ∧
        Context.votes c' = Context.votes one_candidate.
Proof.
  assert (Hun : "B" ∉ names (Context.participants one_candidate))
    by (apply (bool_decide_unpack _); vm_compute; exact I).
  split_and!; [reflexivity | reflexivity | exact Hun |].
  apply (unknown_first_choice_raises one_candidate 0 (Vote.new ["B"; "A"]) "B" ["A"] 3);
    [reflexivity | reflexivity | exact Hun].
Defined.

(** ** Claims about the quota *)

Lemma Qceiling_unique (x : Q) (n : Z) :
  (inject_Z (n - 1) < x)%Q → (x <= inject_Z n)%Q → Qceiling x = n.
Proof.
  intros Hlo Hhi.
  pose proof (Qle_ceiling x) as Hc. pose proof (Qceiling_lt x) as Hl.
  assert (inject_Z (n - 1) < inject_Z (Qceiling x))%Q as H1
    by (eapply Qlt_le_trans; eauto).
  assert (inject_Z (Qceiling x - 1) < inject_Z n)%Q as H2
    by (eapply Qlt_le_trans; eauto).
  rewrite <- Zlt_Qlt in H1, H2. lia.
Qed.

(** The quota of the code against the Droop quota [V / (seats + 1) + 1]:
    they agree exactly when [seats + 1] divides the number of votes. *)
Lemma compute_quota_floor (nvotes : nat) (seats : Z) :
  (0 <= seats)%Z →
  Context.compute_quota nvotes seats =
    inject_Z (Z.of_nat nvotes / (seats + 1) + 1 +
              (if (Z.of_nat nvotes mod (seats + 1) =? 0)%Z then 0 else 1)).
Proof.
  intros Hs. unfold Context.compute_quota. cbv zeta. f_equal.
  set (a := Z.of_nat nvotes). set (b := (seats + 1)%Z).
  assert (Hb : (0 < b)%Z) by (unfold b; lia).
  assert (Hbq : (0 < inject_Z b)%Q) by (change 0%Q with (inject_Z 0); by rewrite <- Zlt_Qlt).
  pose proof (Z.div_mod a b ltac:(lia)) as Hdm.
  pose proof (Z.mod_pos_bound a b Hb) as Hr.
  set (q := (a / b)%Z) in *. set (r := (a mod b)%Z) in *.
  apply Qceiling_unique.
  - assert (inject_Z (q + 1 + (if (r =? 0)%Z then 0 else 1) - 1 - 1)
            < inject_Z a / inject_Z b)%Q as H.
    { apply Qlt_shift_div_l; [done|]. rewrite <- inject_Z_mult, <- Zlt_Qlt.
      destruct (r =? 0)%Z eqn:E; [apply Z.eqb_eq in E|apply Z.eqb_neq in E]; nia. }
    replace (q + 1 + (if (r =? 0)%Z then 0 else 1) - 1)%Z
      with ((q + 1 + (if (r =? 0)%Z then 0 else 1) - 1 - 1) + 1)%Z by lia.
    rewrite inject_Z_plus. change (inject_Z 1) with 1%Q. lra.
  - assert (inject_Z a / inject_Z b
            <= inject_Z (q + (if (r =? 0)%Z then 0 else 1)))%Q as H.
    { apply Qle_shift_div_r; [done|]. rewrite <- inject_Z_mult, <- Zle_Qle.
      destruct (r =? 0)%Z eqn:E; [apply Z.eqb_eq in E|apply Z.eqb_neq in E]; nia. }
    replace (q + 1 + (if (r =? 0)%Z then 0 else 1))%Z
      with ((q + (if (r =? 0)%Z then 0 else 1)) + 1)%Z by lia.
    rewrite inject_Z_plus. change (inject_Z 1) with 1%Q. lra.
Qed.

(** C1.  At the election of section 8 of the specification (three
    candidates, two seats, five ballots with a preference and one blank
    ballot) the constructor discards the blank ballot and computes the quota
    3, whereas [floor (5 / (2 + 1)) + 1] is 2. *)
Theorem quota_rounds_up :
  ∃ c, Context.init ["A"; "B"; "C"] 2
         [["A"; "B"]; ["A"; "C"]; ["A"]; ["B"; "C"]; ["C"]; []] = inr c ∧
       length (Context.votes c) = 5%nat ∧
       Context.quota c = 3%Q ∧
       (5 / (Context.seats c + 1) + 1 = 2)%Z.
Proof. eexists. split; [reflexivity|]. split_and!; reflexivity. Qed.

(** ** Claims about one round *)

Lemma migrate_state c h source wcoef :
  let c1 := state_of (for_each (Context.migrate_vote wcoef)
                        (Participant.votes source) c) in
  state_of (Context.migrate c h source wcoef) = c1 ∨
  state_of (Context.migrate c h source wcoef) = Context.clear_source h c1.
Proof.
  unfold Context.migrate.
  destruct (for_each _ _ c) as [c1|e c1]; simpl; [by right | by left].
Qed.

(** C6.  In a round whose leader is below the quota, when the winners and
    the candidates left after the removal of the last one number exactly
    [seats], the round appends these candidates to the winners in the order
    they have after the sort, empties the list of participants, and the
    election is complete; nothing is asked of their vote counts. *)
Theorem automatic_fill (c : Context.t) (first last : Participant.t)
    (rest others : list Participant.t) :
  Context.sort_desc (Participant.count_votes (Context.votes c))
    (Context.participants c) = first :: rest →
  (Participant.count_votes (Context.votes c) first < Context.quota c)%Q →
  first :: rest = others ++ [last] →
  Z.of_nat (length (Context.winners c) + length others) = Context.seats c →
  Context.winners (state_of (Context.election_phase c)) = Context.winners c ++ others ∧
  Context.participants (state_of (Context.election_phase c)) = [] ∧
  names (Context.eliminated (state_of (Context.election_phase c)))
    = names (Context.eliminated c) ++ [Participant.name last] ∧
  Context.complete (state_of (Context.election_phase c)) = true.
Proof.
  intros Hs Hlow Hpop Hfill.
  destruct (election_phase_cases c)
    as [[Hnil _]|[(first' & rest' & Hs' & Hv & _)
               |(first' & others' & last' & Hs' & _ & _ & [[_ ->]|[Hno _]])]].
  - congruence.
  - rewrite Hs in Hs'. injection Hs' as <- <-.
    exfalso. by apply Qle_not_lt in Hv.
  - rewrite Hs, Hpop in Hs'. apply app_inj_tail in Hs' as [<- <-].
    set (c2 := Context.set_participants [] _).
    pose proof (migrate_votes_frame 1 (Participant.votes last) c2)
      as (Hseats & Hw & He & _ & _ & Hn & _).
    assert (Hc' : ∀ c', c' = state_of (for_each (Context.migrate_vote 1)
                                (Participant.votes last) c2) ∨
                  c' = Context.clear_source Context.in_eliminated
                         (state_of (for_each (Context.migrate_vote 1)
                                      (Participant.votes last) c2)) →
              Context.winners c' = Context.winners c ++ others ∧
              Context.participants c' = [] ∧
              names (Context.eliminated c')
                = names (Context.eliminated c) ++ [Participant.name last] ∧
              Context.complete c' = true).
    { intros c' Hc'. apply map_eq_nil in Hn.
      assert (Context.winners c' = Context.winners c ++ others) as Hw'
        by (destruct Hc' as [->| ->]; simpl; by rewrite Hw).
      assert (Context.seats c' = Context.seats c) as Hs'
        by (destruct Hc' as [->| ->]; simpl; by rewrite Hseats).
      split_and!; [done| | |].
      - destruct Hc' as [->| ->]; simpl; by rewrite Hn.
      - destruct Hc' as [->| ->]; simpl;
          [|rewrite names_alter_last by done]; rewrite He; unfold c2; simpl;
          by rewrite names_app.
      - unfold Context.complete. rewrite Hw', Hs', length_app.
        by apply Z.eqb_eq. }
    apply Hc'. apply migrate_state.
  - rewrite Hs, Hpop in Hs'. apply app_inj_tail in Hs' as [<- <-]. done.
Qed.

Lemma automatic_fill_witness :
  Context.sort_desc (Participant.count_votes (Context.votes two_for_one_seat))
    (Context.participants two_for_one_seat)
    = Participant.mk "B" [1; 2] :: [Participant.mk "A" [0]] ∧
  Qlt (Participant.count_votes (Context.votes two_for_one_seat)
         (Participant.mk "B" [1; 2]))
      (Context.quota two_for_one_seat) ∧
  Context.winners (state_of (Context.election_phase two_for_one_seat))
    = Context.winners two_for_one_seat ++ [Participant.mk "B" [1; 2]] ∧
  Context.complete (state_of (Context.election_phase two_for_one_seat)) = true.
Proof.
  assert (H1 : Context.sort_desc
                 (Participant.count_votes (Context.votes two_for_one_seat))
                 (Context.participants two_for_one_seat)
               = Participant.mk "B" [1; 2] :: [Participant.mk "A" [0]])
    by reflexivity.
  assert (H2 : Qlt (Participant.count_votes (Context.votes two_for_one_seat)
                      (Participant.mk "B" [1; 2]))
                   (Context.quota two_for_one_seat))
    by reflexivity.
  pose proof (automatic_fill two_for_one_seat (Participant.mk "B" [1; 2])
                (Participant.mk "A" [0]) [Participant.mk "A" [0]]
                [Participant.mk "B" [1; 2]] H1 H2 eq_refl eq_refl)
    as (Hw & _ & _ & Hc).
  split_and!; [exact H1 | exact H2 | exact Hw | exact Hc].
Defined.

Lemma total_weight_scale (s s' : list Vote.t) (l : list nat) (k : Q) :
  (∀ i, i ∈ l →
     (Vote.weight (Participant.vote_at s' i)
        == Vote.weight (Participant.vote_at s i) * k)%Q) →
  (total_weight s' l == total_weight s l * k)%Q.
Proof.
  unfold total_weight. intros H.
  assert (Hgen : ∀ a a', (a' == a * k)%Q →
    (fold_left (λ ret i, ret + Vote.weight (Participant.vote_at s' i))%Q l a'
     == fold_left (λ ret i, ret + Vote.weight (Participant.vote_at s i))%Q l a * k)%Q).
  { induction l as [|i l IH]; intros a a' Ha; simpl; [done|].
    apply IH.
    - intros j Hj. apply H. by right.
    - rewrite Ha, (H i) by by left. ring. }
  apply Hgen. ring.
Qed.

(** ** Claims about migrate *)

Lemma live_all_spec store l :
  live_all store l = true → ∀ i, i ∈ l → live store i.
Proof.
  unfold live_all. rewrite forallb_forall. intros H i Hi.
  apply list_elem_of_In, H in Hi. unfold live.
  destruct (store !! i) as [v|]; [|done]. exists v. split; [done|].
  unfold Vote.is_white in Hi. by destruct (Vote.prefs v).
Qed.

Lemma held_perm h c :
  held c ≡ₚ owned (Context.participants c) ++ owned (home_list h c)
              ++ owned (other_list h c).
Proof.
  unfold held. rewrite !owned_app.
  destruct h; simpl; [done|]. f_equiv. apply Permutation_app_comm.
Qed.

Lemma owned_snoc l p : owned (l ++ [p]) = owned l ++ Participant.votes p.
Proof. rewrite owned_app. unfold owned at 2. simpl. by rewrite app_nil_r. Qed.

Lemma clear_source_lists h c before source :
  home_list h c = before ++ [source] →
  home_list h (Context.clear_source h c) = before ++ [Participant.clear source] ∧
  other_list h (Context.clear_source h c) = other_list h c.
Proof.
  destruct h; simpl; intros ->; by rewrite alter_last_snoc.
Qed.

(** C2.  [migrate] on a source whose votes are distinct objects with a
    preference left, held by nobody else: every vote of the source loses
    its first preference and has its weight multiplied by [wcoef] once;
    the next preferences that name nobody still running are consumed
    without a change of weight; the vote ends up held by the participant
    its first remaining preference names, or, with no preference left, by
    no candidate at all; and the source is left with no vote. *)
Theorem migrate_moves_every_vote (c : Context.t) (h : Context.home)
    (source : Participant.t) (before : list Participant.t) (wcoef : Q) :
  home_list h c = before ++ [source] →
  NoDup (held c) →
  (∀ i, i ∈ Participant.votes source ++ owned (Context.participants c) →
        live (Context.votes c) i) →
  ∃ c', Context.migrate c h source wcoef = Ok c' ∧
        home_list h c' = before ++ [Participant.mk (Participant.name source) []] ∧
        NoDup (held c') ∧
        ∀ i, i ∈ Participant.votes source →
          moved wcoef c i c' ∧
          (∀ v', Context.votes c' !! i = Some v' → Vote.prefs v' = [] → i ∉ held c').
Proof.
  intros Hhome Hnd Hlive.
  rewrite (held_perm h), Hhome, owned_snoc in Hnd.
  apply NoDup_app in Hnd as (HndA & HdisjA & Hnd).
  apply NoDup_app in Hnd as (HndH & HdisjH & HndO).
  apply NoDup_app in HndH as (HndB & HdisjB & HndS).
  destruct (migrate_votes_spec wcoef (Participant.votes source) c)
    as (c1 & Hloop & Hfr & Hnd1 & Hlive1 & Hsub & Hsame & Hmoved); [|done|].
  { apply NoDup_app. split_and!; [done| |done].
    intros i Hi HiA. apply (HdisjA i HiA). apply elem_of_app. left.
    apply elem_of_app. by right. }
  destruct Hfr as (_ & Hw & He & _ & _ & Hn & _).
  assert (Hhome1 : home_list h c1 = before ++ [source])
    by (rewrite <- Hhome; destruct h; simpl; congruence).
  assert (Hother1 : other_list h c1 = other_list h c)
    by (destruct h; simpl; congruence).
  destruct (clear_source_lists h c1 before source Hhome1) as [Hhome' Hother'].
  destruct (clear_source_frame h c1) as (_ & _ & _ & Hv' & Hp' & _).
  set (c' := Context.clear_source h c1) in *.
  assert (Hheld : held c' ≡ₚ owned (Context.participants c1) ++ owned before
                               ++ owned (other_list h c)).
  { rewrite (held_perm h), Hhome', Hother', Hother1, Hp', owned_snoc. simpl.
    by rewrite app_nil_r. }
  assert (Hfresh : ∀ i, i ∈ owned (Context.participants c1) →
                        i ∉ owned before ++ owned (other_list h c)).
  { intros i Hi Hin. destruct (Hsub i Hi) as [HiS|HiA].
    - apply elem_of_app in Hin as [HiB|HiO].
      + by apply (HdisjB i HiB).
      + apply (HdisjH i); [|done]. apply elem_of_app. by right.
    - apply (HdisjA i HiA). apply elem_of_app in Hin as [HiB|HiO].
      + apply elem_of_app. left. apply elem_of_app. by left.
      + apply elem_of_app. by right. }
  exists c'. split_and!.
  - unfold Context.migrate. by rewrite Hloop.
  - done.
  - rewrite Hheld. apply NoDup_app. split_and!.
    + by rewrite app_nil_l in Hnd1.
    + done.
    + apply NoDup_app. split_and!; [done| |done].
      intros i HiB HiO. apply (HdisjH i); [|done]. apply elem_of_app. by left.
  - intros i Hi. split.
    + destruct (Hmoved i Hi) as (u & u' & p & sk & Hu & Hu' & Hpr & Hsk & Hwt & Hend).
      exists u, u', p, sk. rewrite Hv', Hp'. done.
    + intros v' Hv Hnil. rewrite Hv' in Hv.
      destruct (Hmoved i Hi) as (u & u' & p & sk & _ & Hu' & _ & _ & _ & Hend).
      rewrite Hv in Hu'. injection Hu' as <-. rewrite Hnil in Hend.
      rewrite Hheld. intros Hin. apply elem_of_app in Hin as [HiA|Hin]; [done|].
      apply elem_of_app in Hin as [HiB|HiO].
      * by apply (HdisjB i HiB).
      * apply (HdisjH i); [|done]. apply elem_of_app. by right.
Qed.

(** ** Claims about the whole election *)

Lemma boundary_start_inv c0 c :
  Context.assign_votes c0 = Ok c →
  ∃ ps, c = Context.set_participants ps c0 ∧
        names ps = names (Context.participants c0).
Proof.
  intros H. destruct (assign_votes_frame c0 _ H) as (ps & Hps & Hn).
  simpl in Hps. by exists ps.
Qed.

Lemma boundary_frame pnames seats ballots c0 n c :
  Context.init pnames seats ballots = inr c0 →
  boundary c0 n c →
  Context.seats c = seats ∧
  Context.quota c = Context.compute_quota (length (Context.votes c0)) seats ∧
  length (Context.votes c) = length (Context.votes c0) ∧
  Context.phase c = n.
Proof.
  intros Hinit%init_inr Hb. induction Hb as [c Hc|n c c' Hb IH Hnc Hc'].
  - apply boundary_start_inv in Hc as (ps & -> & _). by subst c0.
  - apply election_phase_transition in Hc' as (_ & -> & -> & -> & ->).
    destruct IH as (? & ? & ? & ?). split_and!; congruence.
Qed.

Lemma boundary_weights pnames seats ballots c0 n c :
  Context.init pnames seats ballots = inr c0 → (0 <= seats)%Z →
  boundary c0 n c →
  (0 < Context.quota c)%Q ∧ nonneg (Context.votes c).
Proof.
  intros Hinit Hs Hb.
  destruct (boundary_frame _ _ _ _ _ _ Hinit Hb) as (_ & Hq & _).
  split.
  { rewrite Hq. pose proof (compute_quota_pos (length (Context.votes c0)) seats Hs).
    lra. }
  assert (Hq' : ∀ n c, boundary c0 n c → (0 < Context.quota c)%Q).
  { intros n' c' Hb'.
    destruct (boundary_frame _ _ _ _ _ _ Hinit Hb') as (_ & -> & _).
    pose proof (compute_quota_pos (length (Context.votes c0)) seats Hs). lra. }
  clear Hq. induction Hb as [c Hc|n c c' Hb IH Hnc Hc'].
  - apply boundary_start_inv in Hc as (ps & -> & _). simpl.
    apply init_inr in Hinit. subst c0. simpl. intros i v Hv.
    apply destroy_white_votes_live in Hv as (_ & -> & _). done.
  - pose proof (election_phase_fades c (Hq' _ _ Hb) IH) as [Hnn _].
    by rewrite Hc' in Hnn.
Qed.

(** C8.  In an election built with [seats >= 0]: every vote starts with
    weight 1, the initial assignment leaves the votes alone, and from any
    round boundary the next round, whether it returns or raises, leaves
    every vote with at most the weight it had; the coefficient of a winner
    round lies between 0 and 1. *)
Theorem weights_never_grow (pnames : list string) (seats : Z)
    (ballots : list (list string)) (c0 : Context.t) :
  Context.init pnames seats ballots = inr c0 → (0 <= seats)%Z →
  (∀ i v, Context.votes c0 !! i = Some v → (Vote.weight v == 1)%Q) ∧
  (∀ c, boundary c0 0 c → Context.votes c = Context.votes c0) ∧
  (∀ n c, boundary c0 n c →
     fades (Context.votes c) (Context.votes (state_of (Context.election_phase c)))) ∧
  (∀ n c first, boundary c0 n c →
     (Context.quota c <= Participant.count_votes (Context.votes c) first)%Q →
     (0 <= (Participant.count_votes (Context.votes c) first - Context.quota c)
             / Participant.count_votes (Context.votes c) first <= 1)%Q).
Proof.
  intros Hinit Hs. split_and!.
  - intros i v Hv. apply init_inr in Hinit. subst c0. simpl in Hv.
    by apply destroy_white_votes_live in Hv as (_ & ? & _).
  - intros c Hb. inversion Hb as [c' Hc|]; subst.
    by apply boundary_start_inv in Hc as (ps & -> & _).
  - intros n c Hb.
    destruct (boundary_weights _ _ _ _ _ _ Hinit Hs Hb) as [Hq Hnn].
    by apply election_phase_fades.
  - intros n c first Hb Hv.
    destruct (boundary_weights _ _ _ _ _ _ Hinit Hs Hb) as [Hq _].
    split.
    + apply Qle_shift_div_l; lra.
    + apply Qle_shift_div_r; lra.
Qed.

Lemma names_disjoint (l k : list string) x :
  NoDup (l ++ k) → x ∈ l → x ∉ k.
Proof. intros (_ & H & _)%NoDup_app. apply H. Qed.

(** C4.  In an election built from distinct candidate names with
    [seats >= 0], at every round boundary the names of the participants
    still running, of the winners and of the eliminated are a rearrangement
    of the candidate names, no name is in two of the three lists, and there
    are at most [seats] winners. *)
Theorem partition_invariant (pnames : list string) (seats : Z)
    (ballots : list (list string)) (c0 c : Context.t) (n : nat) :
  Context.init pnames seats ballots = inr c0 → NoDup pnames → (0 <= seats)%Z →
  boundary c0 n c →
  names (Context.participants c) ++ names (Context.winners c)
    ++ names (Context.eliminated c) ≡ₚ pnames ∧
  (∀ x, x ∈ names (Context.participants c) → x ∉ names (Context.winners c)) ∧
  (∀ x, x ∈ names (Context.participants c) → x ∉ names (Context.eliminated c)) ∧
  (∀ x, x ∈ names (Context.winners c) → x ∉ names (Context.eliminated c)) ∧
  (Z.of_nat (length (Context.winners c)) <= seats)%Z.
Proof.
  intros Hinit Hnd Hs Hb.
  assert (Hinv : names (Context.participants c) ++ names (Context.winners c)
                   ++ names (Context.eliminated c) ≡ₚ pnames ∧
                 (Z.of_nat (length (Context.winners c)) <= seats)%Z).
  { induction Hb as [c Hc|n c c' Hb IH Hnc Hc'].
    - apply boundary_start_inv in Hc as (ps & -> & Hn).
      apply init_inr in Hinit. subst c0. simpl in *.
      rewrite Hn, names_get_participants, app_nil_r. split; [done|lia].
    - destruct (boundary_frame _ _ _ _ _ _ Hinit Hb) as (Hseats & _).
      destruct IH as [Hperm Hle].
      unfold Context.complete in Hnc. apply Z.eqb_neq in Hnc.
      apply election_phase_transition in Hc' as (Ht & _).
      destruct Ht as [x HA HW HE|x HA HW HE Hno|x rest HA HA' HW HE Hfill];
        rewrite <- !names_length in *.
      + rewrite HW, HE, length_app. simpl. split; [|lia].
        rewrite <- Hperm, HA, <- (Permutation_cons_append _ x). simpl.
        by rewrite <- Permutation_middle.
      + rewrite HW, HE. split; [|lia].
        rewrite <- Hperm, HA, <- (Permutation_cons_append _ x). simpl.
        by rewrite <- !Permutation_middle.
      + rewrite HW, HE, HA', length_app. simpl. split; [|lia].
        rewrite <- Hperm, HA, <- (Permutation_cons_append _ x). simpl.
        rewrite <- !Permutation_middle. f_equiv.
        rewrite (Permutation_app_comm (names (Context.winners c)) rest).
        by rewrite <- app_assoc. }
  destruct Hinv as [Hperm Hle]. split_and!; [done| | | |done].
  all: rewrite <- Hperm in Hnd.
  - intros x Hx Hw. eapply names_disjoint; [exact Hnd|done|].
    apply elem_of_app. by left.
  - intros x Hx He. eapply names_disjoint; [exact Hnd|done|].
    apply elem_of_app. by right.
  - apply NoDup_app in Hnd as (_ & _ & Hnd).
    intros x Hx He. by eapply names_disjoint.
Qed.

Lemma election_phase_shrinks c c' :
  Context.election_phase c = Ok c' →
  (length (Context.participants c') < length (Context.participants c))%nat.
Proof.
  intros (Ht & _)%election_phase_transition.
  rewrite <- !names_length.
  destruct Ht as [x HA _ _|x HA _ _ _|x rest HA HA' _ _ _]; rewrite HA; simpl; [lia..|].
  rewrite HA'. simpl. lia.
Qed.

Lemma running_step seats c :
  running seats c → Context.complete c = false →
  ∃ c', Context.election_phase c = Ok c' ∧ running seats c' ∧
        Context.phase c' = S (Context.phase c) ∧
        (length (Context.participants c') < length (Context.participants c))%nat.
Proof.
  intros (Hsound & Hq & Hseats & Hle & Hmore) Hnc.
  unfold Context.complete in Hnc. apply Z.eqb_neq in Hnc. rewrite Hseats in Hnc.
  destruct Hmore as [?|Hmore]; [done|].
  destruct (election_phase_sound c Hsound Hq) as (c' & Hc' & Hsound').
  { intros Hnil. rewrite Hnil in Hmore. simpl in Hmore. lia. }
  exists c'. pose proof (election_phase_shrinks _ _ Hc') as Hlt.
  pose proof (election_phase_transition _ _ Hc') as (Ht & Hs' & Hq' & Hph & _).
  split; [done|]. split; [|done].
  unfold running. split_and!; [done|by rewrite Hq'|congruence|..];
    destruct Ht as [x HA HW HE|x HA HW HE Hno|x rest HA HA' HW HE Hfill];
    rewrite <- !names_length in *; rewrite ?HW, ?length_app in *;
    try rewrite HA in Hmore; try rewrite HA in Hlt; simpl in *; lia.
Qed.

Lemma running_rounds seats fuel c :
  running seats c →
  (length (Context.participants c) <= fuel + 1)%nat →
  ∃ c', Context.rounds fuel c = Some (Ok c') ∧
        Context.complete c' = true ∧
        (Context.phase c' <= Context.phase c + (length (Context.participants c) - 1))%nat.
Proof.
  revert c. induction fuel as [|fuel IH]; intros c Hrun Hfuel.
  - simpl. destruct (Context.complete c) eqn:Hc.
    + exists c. split_and!; [done|done|lia].
    + destruct (running_step _ _ Hrun Hc) as (c' & _ & Hrun' & _ & Hlt).
      exfalso. destruct Hrun as (_ & _ & Hseats & Hle & Hmore).
      unfold Context.complete in Hc. apply Z.eqb_neq in Hc. lia.
  - simpl. destruct (Context.complete c) eqn:Hc.
    + exists c. split_and!; [done|done|lia].
    + destruct (running_step _ _ Hrun Hc) as (c1 & -> & Hrun1 & Hph & Hlt).
      destruct (IH c1 Hrun1) as (c' & Hr & Hdone & Hbound); [lia|].
      exists c'. split_and!; [done|done|].
      destruct Hrun as (_ & _ & Hseats & Hle & Hmore).
      unfold Context.complete in Hc. apply Z.eqb_neq in Hc. lia.
Qed.

Lemma init_running pnames seats ballots c0 c :
  Context.init pnames seats ballots = inr c0 →
  Context.assign_votes c0 = Ok c →
  (0 <= seats)%Z →
  sound c ∧ (0 < Context.quota c)%Q ∧ Context.seats c = seats ∧
  Context.winners c = [] ∧ Context.eliminated c = [] ∧ Context.phase c = O ∧
  length (Context.participants c) = length pnames.
Proof.
  intros Hinit Hc Hs.
  pose proof (boundary_start _ _ Hc) as Hb.
  destruct (boundary_weights _ _ _ _ _ _ Hinit Hs Hb) as [Hq _].
  assert (Hsound : sound c).
  { apply (assign_votes_sound c0 c Hc); apply init_inr in Hinit; subst c0; simpl.
    - apply owned_get_participants.
    - intros i v Hv. by apply destroy_white_votes_live in Hv as (? & _). }
  apply boundary_start_inv in Hc as (ps & -> & Hn).
  apply init_inr in Hinit. subst c0. simpl in *.
  split_and!; try done.
  rewrite <- (names_length ps), Hn, names_get_participants. done.
Qed.

Lemma init_known pnames seats ballots c0 :
  Context.init pnames seats ballots = inr c0 →
  known_first_choices pnames ballots →
  ∃ c, Context.assign_votes c0 = Ok c.
Proof.
  intros Hinit Hknown. apply assign_votes_Ok.
  apply init_inr in Hinit. subst c0. simpl. intros i v Hv.
  apply destroy_white_votes_live in Hv as (Hne & _ & Hin).
  destruct (Vote.prefs v) as [|p rest] eqn:Hp; [done|].
  exists p, rest. split; [done|]. rewrite names_get_participants.
  by eapply Hknown.
Qed.

(** C5, as amended.  With more candidates than seats ([0 <= seats <
    number of candidates]) and first preferences that all name candidates,
    [election_loop] returns with the election complete, that is with
    exactly [seats] winners, after at most [number of candidates - 1]
    rounds; and every round that returns leaves strictly fewer participants
    running than it found. *)
Theorem rounds_terminate (pnames : list string) (seats : Z)
    (ballots : list (list string)) (c0 : Context.t) (fuel : nat) :
  Context.init pnames seats ballots = inr c0 →
  known_first_choices pnames ballots →
  (0 <= seats < Z.of_nat (length pnames))%Z →
  (length pnames - 1 <= fuel)%nat →
  (∃ c', Context.election_loop fuel c0 = Some (Ok c') ∧
         Z.of_nat (length (Context.winners c')) = seats ∧
         (Context.phase c' <= length pnames - 1)%nat) ∧
  (∀ c c', Context.election_phase c = Ok c' →
           (length (Context.participants c') < length (Context.participants c))%nat).
Proof.
  intros Hinit Hknown Hs Hfuel. split; [|apply election_phase_shrinks].
  destruct (init_known _ _ _ _ Hinit Hknown) as (c & Hc).
  destruct (init_running _ _ _ _ _ Hinit Hc) as (Hsound & Hq & Hseats & Hw & He & Hph & Hlen);
    [lia|].
  destruct (running_rounds seats fuel c) as (c' & Hr & Hdone & Hbound).
  - unfold running. split_and!; try done; rewrite Hw; simpl; [lia|]. right. lia.
  - lia.
  - exists c'. unfold Context.election_loop. rewrite Hc. split_and!; [done| |lia].
    unfold Context.complete in Hdone. apply Z.eqb_eq in Hdone.
    assert (Context.seats c' = seats) as <-; [|done].
    clear -Hr Hseats. revert c Hr Hseats.
    induction fuel as [|fuel IH]; intros c Hr Hseats; simpl in Hr;
      destruct (Context.complete c); try (injection Hr as <-; done); [done|].
    destruct (Context.election_phase c) as [c1|e c1] eqn:Hc1; [|done].
    apply (IH c1 Hr).
    apply election_phase_transition in Hc1 as (_ & -> & _). done.
Qed.

Lemma first_choices_known_spec pnames ballots :
  first_choices_known pnames ballots = true → known_first_choices pnames ballots.
Proof.
  unfold first_choices_known. rewrite forallb_forall.
  intros H b p rest Hb ->. apply list_elem_of_In, H in Hb.
  by apply bool_decide_eq_true in Hb.
Qed.

Lemma election_phase_empty c :
  Context.participants c = [] →
  Context.election_phase c =
    Raise IndexError (Context.set_participants [] (Context.set_phase (S (Context.phase c)) c)).
Proof. intros H. unfold Context.election_phase. simpl. by rewrite H. Qed.

Lemma overbooked_running seats width c :
  overbooked seats width c → Context.complete c = false.
Proof.
  intros (_ & _ & Hs & Hw & Hlt). unfold Context.complete. apply Z.eqb_neq. lia.
Qed.

Lemma overbooked_step seats width c :
  overbooked seats width c → Context.participants c ≠ [] →
  ∃ c', Context.election_phase c = Ok c' ∧ overbooked seats width c' ∧
        Context.phase c' = S (Context.phase c) ∧
        S (length (Context.participants c')) = length (Context.participants c).
Proof.
  intros (Hsound & Hq & Hseats & Hwidth & Hlt) Hne.
  destruct (election_phase_sound c Hsound Hq Hne) as (c' & Hc' & Hsound').
  exists c'.
  pose proof (election_phase_transition _ _ Hc') as (Ht & Hs' & Hq' & Hph & _).
  split; [done|].
  assert (Hcount :
    S (length (Context.participants c')) = length (Context.participants c) ∧
    (length (Context.participants c') + length (Context.winners c')
       + length (Context.eliminated c'))%nat = width).
  { destruct Ht as [x HA HW HE|x HA HW HE Hno|x rest HA HA' HW HE Hfill];
      rewrite <- !names_length in *; rewrite ?HW, ?HE, ?length_app in *;
      rewrite HA in Hwidth |- *; simpl in *; lia. }
  destruct Hcount as [Hone Hwidth'].
  split; [|done]. unfold overbooked. split_and!; [done|by rewrite Hq'|congruence|done|done].
Qed.

Lemma overbooked_rounds seats width fuel c :
  overbooked seats width c →
  (length (Context.participants c) < fuel)%nat →
  ∃ c', Context.rounds fuel c = Some (Raise IndexError c') ∧
        Context.phase c' = S (Context.phase c + length (Context.participants c)) ∧
        Context.participants c' = [] ∧
        (length (Context.winners c') + length (Context.eliminated c'))%nat = width.
Proof.
  revert c. induction fuel as [|fuel IH]; intros c Hover Hfuel; [lia|].
  simpl. rewrite (overbooked_running _ _ _ Hover).
  destruct (Context.participants c) as [|p ps] eqn:Hps.
  - rewrite (election_phase_empty c Hps). eexists. split; [done|]. simpl.
    destruct Hover as (_ & _ & _ & Hwidth & _). rewrite Hps in Hwidth.
    split_and!; [lia|done|done].
  - destruct (overbooked_step _ _ _ Hover) as (c1 & -> & Hover1 & Hph & Hone);
      [by rewrite Hps|].
    rewrite Hps in Hone. simpl in *.
    destruct (IH c1 Hover1) as (c' & -> & Hph' & Hnil & Hwidth); [lia|].
    exists c'. split_and!; [done|lia|done|done].
Qed.

(** C3 fails as stated: one candidate and two seats.  The constructor
    builds the context, round 1 runs and eliminates the candidate, and only
    round 2 raises, with the candidate left in [eliminated]. *)
Lemma configuration_not_rejected :
  ∃ c0 c', Context.init ["A"] 2 [] = inr c0 ∧
           (Z.of_nat (length ["A"]) < 2)%Z ∧
           Context.election_loop 3 c0 = Some (Raise IndexError c') ∧
           Context.phase c' = 2%nat ∧
           names (Context.eliminated c') = ["A"].
Proof.
  eexists. eexists. split; [reflexivity|]. split; [reflexivity|].
  split; [vm_compute; reflexivity|]. split; reflexivity.
Qed.

(** As many seats as candidates: the one candidate has no vote, is
    eliminated in round 1, and round 2 raises IndexError. *)
Example full_house_fails :
  ∃ c0 c', Context.init ["A"] 1 [] = inr c0 ∧
           Context.election_loop 2 c0 = Some (Raise IndexError c') ∧
           names (Context.eliminated c') = ["A"].
Proof.
  eexists. eexists. split; [reflexivity|]. split; [vm_compute; reflexivity|].
  reflexivity.
Qed.

(** C5 fails as stated: four candidates and three seats.  After
    [4 - 3 + 1 = 2] rounds the election is not complete; it is after the
    third round. *)
Lemma more_rounds_than_bound :
  ∃ c0 c', Context.init ["A"; "B"; "C"; "D"] 3
             [["A"]; ["A"]; ["A"]; ["B"]; ["B"]; ["B"]; ["C"]; ["D"]] = inr c0 ∧
           Context.election_loop (4 - 3 + 1) c0 = None ∧
           Context.election_loop 3 c0 = Some (Ok c') ∧
           Context.phase c' = 3%nat ∧
           names (Context.winners c') = ["A"; "B"; "C"].
Proof.
  eexists. eexists. split; [reflexivity|]. split; [vm_compute; reflexivity|].
  split; [vm_compute; reflexivity|]. split; reflexivity.
Qed.

(** ** The claims at concrete elections *)

Lemma sound_check_spec c : sound_check c = true → sound c.
Proof.
  unfold sound_check. intros [Hnd Hlive]%andb_prop. split.
  - by apply bool_decide_eq_true in Hnd.
  - by apply live_all_spec.
Qed.

Lemma migrate_moves_every_vote_witness :
  home_list Context.in_winners six_promoting = [] ++ [Participant.mk "A" [0; 1; 2; 3]] ∧
  NoDup (held six_promoting) ∧
  ∃ c', Context.migrate six_promoting Context.in_winners
          (Participant.mk "A" [0; 1; 2; 3]) (1 # 4) = Ok c' ∧
        home_list Context.in_winners c' = [] ++ [Participant.mk "A" []] ∧
        NoDup (held c') ∧
        ∀ i, i ∈ [0; 1; 2; 3] →
          moved (1 # 4) six_promoting i c' ∧
          (∀ v', Context.votes c' !! i = Some v' → Vote.prefs v' = [] → i ∉ held c').
Proof.
  assert (Hnd : NoDup (held six_promoting))
    by (apply (bool_decide_unpack _); vm_compute; exact I).
  split_and!; [reflexivity | exact Hnd |].
  apply (migrate_moves_every_vote six_promoting Context.in_winners
           (Participant.mk "A" [0; 1; 2; 3]) [] (1 # 4)); [reflexivity | exact Hnd |].
  apply live_all_spec. reflexivity.
Defined.

Lemma weights_never_grow_witness :
  Context.init ["A"; "B"; "C"] 2 six_ballots = inr six_election ∧
  (0 <= 2)%Z ∧
  fades (Context.votes six_assigned)
        (Context.votes (state_of (Context.election_phase six_assigned))).
Proof.
  split_and!; [reflexivity | lia |].
  destruct (weights_never_grow ["A"; "B"; "C"] 2 six_ballots six_election
              eq_refl ltac:(lia)) as (_ & _ & Hfades & _).
  apply (Hfades O). apply boundary_start. reflexivity.
Defined.

Lemma partition_invariant_witness :
  Context.init ["A"; "B"; "C"] 2 six_ballots = inr six_election ∧
  NoDup ["A"; "B"; "C"] ∧
  ∃ c, boundary six_election 2 c ∧
    names (Context.participants c) = [] ∧
    names (Context.winners c) = ["A"; "B"] ∧
    names (Context.eliminated c) = ["C"] ∧
    names (Context.participants c) ++ names (Context.winners c)
      ++ names (Context.eliminated c) ≡ₚ ["A"; "B"; "C"] ∧
    (∀ x, x ∈ names (Context.winners c) → x ∉ names (Context.eliminated c)) ∧
    (Z.of_nat (length (Context.winners c)) <= 2)%Z.
Proof.
  assert (Hnd : NoDup ["A"; "B"; "C"])
    by (apply (bool_decide_unpack _); vm_compute; exact I).
  assert (Hb : ∃ c, boundary six_election 2 c ∧
                names (Context.participants c) = [] ∧
                names (Context.winners c) = ["A"; "B"] ∧
                names (Context.eliminated c) = ["C"]).
  { eexists. split.
    - eapply boundary_round;
        [eapply boundary_round;
           [apply boundary_start; vm_compute; reflexivity
           | vm_compute; reflexivity
           | vm_compute; reflexivity]
        | vm_compute; reflexivity
        | vm_compute; reflexivity].
    - split_and!; reflexivity. }
  destruct Hb as (c & Hb & HA & HW & HE).
  split; [reflexivity|]. split; [exact Hnd|].
  exists c. split; [exact Hb|]. split; [exact HA|]. split; [exact HW|].
  split; [exact HE|].
  destruct (partition_invariant ["A"; "B"; "C"] 2 six_ballots six_election
              c 2 eq_refl Hnd ltac:(lia) Hb) as (Hperm & _ & _ & Hdisj & Hle).
  split; [exact Hperm|]. split; [exact Hdisj | exact Hle].
Defined.

Lemma rounds_terminate_witness :
  Context.init ["A"; "B"; "C"] 2 six_ballots = inr six_election ∧
  known_first_choices ["A"; "B"; "C"] six_ballots ∧
  ∃ c', Context.election_loop 2 six_election = Some (Ok c') ∧
        Z.of_nat (length (Context.winners c')) = 2%Z ∧
        (Context.phase c' <= 3 - 1)%nat.
Proof.
  assert (Hknown : known_first_choices ["A"; "B"; "C"] six_ballots)
    by (apply first_choices_known_spec; reflexivity).
  split_and!; [reflexivity | exact Hknown |].
  apply (rounds_terminate ["A"; "B"; "C"] 2 six_ballots six_election 2
           eq_refl Hknown); simpl; lia.
Defined.

(** * Further properties of the code *)

(** ** find_participant *)

(** X1.  [find_participant] returns the first participant of the list that
    bears the name, and [None] exactly when no participant bears it; it
    finds nobody for the [None] that [first_choice] gives on a white vote. *)
Theorem find_participant_first (ps : list Participant.t) (n : string) :
  match Context.find_participant ps (Some n) with
  | Some k =>
      ∃ p, ps !! k = Some p ∧ Participant.name p = n ∧
           ∀ j q, (j < k)%nat → ps !! j = Some q → Participant.name q ≠ n
  | None => ∀ q, q ∈ ps → Participant.name q ≠ n
  end ∧
  Context.find_participant ps None = None.
Proof.
  split.
  - induction ps as [|p ps IH]; simpl.
    + intros q Hq. by apply elem_of_nil in Hq.
    + case_decide as Hd.
      * exists p. split_and!; [done|congruence|]. intros j q Hj. lia.
      * destruct (Context.find_participant ps (Some n)) as [k|]; simpl.
        -- destruct IH as (q & Hq & Hn & Hfirst). exists q. split_and!; [done..|].
           intros [|j] r Hj Hr; simpl in Hr.
           ++ injection Hr as <-. congruence.
           ++ apply (Hfirst j); [lia|done].
        -- intros q [->|Hq]%elem_of_cons; [congruence|by apply IH].
  - induction ps as [|p ps IH]; [done|].
    cbn [Context.find_participant].
    destruct (decide (Some (Participant.name p) = None)); [done|]. by rewrite IH.
Qed.

(** ** The sort of a round *)

Lemma insert_desc_sorted key p l :
  StronglySorted (λ a b, (key b <= key a)%Q) l →
  StronglySorted (λ a b, (key b <= key a)%Q) (Context.insert_desc key p l).
Proof.
  intros Hs. induction Hs as [|q l Hs IH Hq]; simpl.
  - repeat constructor.
  - destruct (Qle_bool (key q) (key p)) eqn:E.
    + apply Qle_bool_iff in E. constructor; [by constructor|].
      constructor; [done|]. eapply Forall_impl; [exact Hq|].
      intros r Hr. simpl in Hr. by eapply Qle_trans.
    + constructor; [done|].
      assert (key p <= key q)%Q as Hpq.
      { apply Qlt_le_weak, Qnot_le_lt. intros H. apply Qle_bool_iff in H. congruence. }
      rewrite insert_desc_perm. by constructor.
Qed.

Lemma insert_desc_filter key (P : Participant.t → bool) p l :
  (∀ q, P p = true → P q = true → (key q <= key p)%Q) →
  List.filter P (Context.insert_desc key p l) = List.filter P (p :: l).
Proof.
  intros Hsame. induction l as [|q l IH]; [done|]. simpl in *.
  destruct (Qle_bool (key q) (key p)) eqn:E; [done|]. simpl. rewrite IH.
  destruct (P p) eqn:Hp, (P q) eqn:Hq; try done.
  specialize (Hsame q eq_refl Hq). apply Qle_bool_iff in Hsame. congruence.
Qed.

Lemma sort_desc_sorted key l :
  StronglySorted (λ a b, (key b <= key a)%Q) (Context.sort_desc key l).
Proof.
  induction l as [|p l IH]; simpl; [constructor | by apply insert_desc_sorted].
Qed.

(** X2.  The sort of [election_phase] rearranges the participants, puts
    them in order of decreasing key, and keeps the participants of equal
    key in the order they had. *)
Theorem sort_desc_stable (key : Participant.t → Q) (l : list Participant.t) :
  Context.sort_desc key l ≡ₚ l ∧
  StronglySorted (λ a b, (key b <= key a)%Q) (Context.sort_desc key l) ∧
  ∀ k : Q, List.filter (λ p, Qeq_bool (key p) k) (Context.sort_desc key l)
           = List.filter (λ p, Qeq_bool (key p) k) l.
Proof.
  split_and!.
  - apply sort_desc_perm.
  - apply sort_desc_sorted.
  - intros k. induction l as [|p l IH]; [done|].
    change (Context.sort_desc key (p :: l))
      with (Context.insert_desc key p (Context.sort_desc key l)).
    rewrite insert_desc_filter.
    + simpl. by rewrite IH.
    + intros q Hp%Qeq_bool_iff Hq%Qeq_bool_iff. rewrite Hp, Hq. apply Qle_refl.
Qed.

Lemma sort_desc_leader key l first rest q :
  Context.sort_desc key l = first :: rest → q ∈ l → (key q <= key first)%Q.
Proof.
  intros Hs Hq. pose proof (sort_desc_perm key l) as Hperm.
  pose proof (sort_desc_sorted key l) as Hsorted.
  rewrite <- Hperm, Hs in Hq. rewrite Hs in Hsorted.
  apply StronglySorted_inv in Hsorted as [_ Hall].
  apply elem_of_cons in Hq as [->|Hq]; [apply Qle_refl|].
  rewrite Forall_forall in Hall. by apply Hall.
Qed.

Lemma sort_desc_trailer key l others last q :
  Context.sort_desc key l = others ++ [last] → q ∈ l → (key last <= key q)%Q.
Proof.
  intros Hs Hq. pose proof (sort_desc_perm key l) as Hperm.
  pose proof (sort_desc_sorted key l) as Hsorted.
  rewrite <- Hperm, Hs in Hq. rewrite Hs in Hsorted. clear Hs Hperm.
  induction others as [|p others IH]; simpl in *.
  - apply list_elem_of_singleton in Hq as ->. apply Qle_refl.
  - apply StronglySorted_inv in Hsorted as [Hs Hall].
    apply elem_of_cons in Hq as [->|Hq]; [|by apply IH].
    rewrite Forall_forall in Hall. apply Hall. apply elem_of_app. right. by left.
Qed.

(** ** What a round decides *)

(** X3.  A round that returns has either promoted a participant whose
    count reached the quota and was the highest, or, with nobody at the
    quota, eliminated a participant whose count was the lowest. *)
Theorem round_decision (c c' : Context.t) :
  Context.election_phase c = Ok c' →
  (∃ p, p ∈ Context.participants c ∧
        (Context.quota c <= Participant.count_votes (Context.votes c) p)%Q ∧
        (∀ q, q ∈ Context.participants c →
              (Participant.count_votes (Context.votes c) q
                 <= Participant.count_votes (Context.votes c) p)%Q) ∧
        names (Context.winners c') = names (Context.winners c) ++ [Participant.name p] ∧
        names (Context.eliminated c') = names (Context.eliminated c)) ∨
  (∃ p, p ∈ Context.participants c ∧
        (∀ q, q ∈ Context.participants c →
              (Participant.count_votes (Context.votes c) q < Context.quota c)%Q ∧
              (Participant.count_votes (Context.votes c) p
                 <= Participant.count_votes (Context.votes c) q)%Q) ∧
        names (Context.eliminated c')
          = names (Context.eliminated c) ++ [Participant.name p]).
Proof.
  pose proof (sort_desc_perm (Participant.count_votes (Context.votes c))
                (Context.participants c)) as Hperm.
  destruct (election_phase_cases c)
    as [[_ ->]|[(first & rest & Hs & Hv & [[_ ->]|[_ ->]])
               |(first & others & last & Hs & Hhd & Hlow & [[_ ->]|[_ ->]])]];
    try done; intros (_ & _ & _ & _ & _ & Hw & He)%migrate_frame; simpl in *.
  - left. exists first. split_and!; [|done| |by rewrite Hw, names_app|done].
    + rewrite <- Hperm, Hs. by left.
    + intros q Hq. by eapply sort_desc_leader.
  - right. exists last. split_and!; [| |by rewrite He, names_app].
    + rewrite <- Hperm, Hs. apply elem_of_app. right. by left.
    + intros q Hq. split; [|by eapply sort_desc_trailer].
      destruct (Context.sort_desc _ _) as [|f r] eqn:Hsort; [done|].
      injection Hhd as ->.
      eapply Qle_lt_trans; [|exact Hlow]. by eapply sort_desc_leader.
  - right. exists last. split_and!; [| |by rewrite He, names_app].
    + rewrite <- Hperm, Hs. apply elem_of_app. right. by left.
    + intros q Hq. split; [|by eapply sort_desc_trailer].
      destruct (Context.sort_desc _ _) as [|f r] eqn:Hsort; [done|].
      injection Hhd as ->.
      eapply Qle_lt_trans; [|exact Hlow]. by eapply sort_desc_leader.
Qed.

Lemma migrate_state_frame c h source wcoef :
  Context.seats (state_of (Context.migrate c h source wcoef)) = Context.seats c ∧
  Context.phase (state_of (Context.migrate c h source wcoef)) = Context.phase c ∧
  Context.quota (state_of (Context.migrate c h source wcoef)) = Context.quota c ∧
  length (Context.votes (state_of (Context.migrate c h source wcoef)))
    = length (Context.votes c).
Proof.
  pose proof (migrate_votes_frame wcoef (Participant.votes source) c)
    as (Hs & _ & _ & Hp & Hq & _ & Hl).
  destruct (migrate_state c h source wcoef) as [-> | ->]; [done|].
  destruct (clear_source_frame h
    (state_of (for_each (Context.migrate_vote wcoef) (Participant.votes source) c)))
    as (-> & -> & -> & -> & _). done.
Qed.

(** X4.  A round, whether it returns or raises, adds one to the phase
    counter and leaves the seats, the quota and the number of vote objects
    as they were. *)
Theorem round_keeps_setup (c : Context.t) :
  Context.phase (state_of (Context.election_phase c)) = S (Context.phase c) ∧
  Context.seats (state_of (Context.election_phase c)) = Context.seats c ∧
  Context.quota (state_of (Context.election_phase c)) = Context.quota c ∧
  length (Context.votes (state_of (Context.election_phase c)))
    = length (Context.votes c).
Proof.
  destruct (election_phase_cases c)
    as [[_ ->]|[(first & rest & Hs & Hv & [[_ ->]|[_ ->]])
               |(first & others & last & Hs & Hhd & Hlow & [[_ ->]|[_ ->]])]];
    try done;
    match goal with
    | |- context [Context.migrate ?c1 ?h ?s ?w] =>
        destruct (migrate_state_frame c1 h s w) as (-> & -> & -> & ->)
    end; done.
Qed.

(** X5.  When [election_loop] returns, the election is complete: there are
    exactly [seats] winners. *)
Theorem election_loop_returns_complete (fuel : nat) (c c' : Context.t) :
  Context.election_loop fuel c = Some (Ok c') →
  Z.of_nat (length (Context.winners c')) = Context.seats c' ∧
  Context.seats c' = Context.seats c.
Proof.
  unfold Context.election_loop.
  destruct (Context.assign_votes c) as [c1|e c1] eqn:Hc1; [|done].
  apply boundary_start_inv in Hc1 as (ps & -> & _).
  change (Context.seats c) with (Context.seats (Context.set_participants ps c)).
  generalize (Context.set_participants ps c). clear c ps.
  induction fuel as [|fuel IH]; intros c Hr; simpl in Hr;
    destruct (Context.complete c) eqn:Hc.
  - injection Hr as <-. split; [|done]. by apply Z.eqb_eq.
  - done.
  - injection Hr as <-. split; [|done]. by apply Z.eqb_eq.
  - destruct (Context.election_phase c) as [c1|e c1] eqn:Hc1; [|done].
    destruct (IH c1 Hr) as [Hw Hs]. split; [done|]. rewrite Hs.
    by apply election_phase_transition in Hc1 as (_ & -> & _).
Qed.

(** ** Preferences and weights along a round *)

Lemma wears_refl s : wears s s.
Proof. split; [done|]. intros i v v' H1 H2. rewrite H1 in H2. by injection H2 as ->. Qed.

Lemma wears_trans s1 s2 s3 : wears s1 s2 → wears s2 s3 → wears s1 s3.
Proof.
  intros [Hl1 H1] [Hl2 H2]. split; [congruence|].
  intros i v v' Hv Hv'.
  destruct (s2 !! i) as [u|] eqn:Hu.
  - etrans; [by eapply H2 | by eapply H1].
  - apply lookup_ge_None in Hu. apply lookup_lt_Some in Hv. lia.
Qed.

Lemma same_weights_refl s : same_weights s s.
Proof. split; [done|]. intros i v v' H1 H2. rewrite H1 in H2. by injection H2 as ->. Qed.

Lemma same_weights_trans s1 s2 s3 :
  same_weights s1 s2 → same_weights s2 s3 → same_weights s1 s3.
Proof.
  intros [Hl1 H1] [Hl2 H2]. split; [congruence|].
  intros i v v' Hv Hv'.
  destruct (s2 !! i) as [u|] eqn:Hu.
  - rewrite (H2 i u v') by done. by eapply H1.
  - apply lookup_ge_None in Hu. apply lookup_lt_Some in Hv. lia.
Qed.

(** One turn of the loop of [migrate] writes one vote, with a final part of
    its preferences. *)
Lemma migrate_vote_prefs wcoef c i :
  ∃ v', Context.votes (state_of (Context.migrate_vote wcoef c i))
          = <[i := v']> (Context.votes c) ∧
        Vote.prefs v' `suffix_of` Vote.prefs (Participant.vote_at (Context.votes c) i) ∧
        (Vote.weight v' ==
           Vote.weight (Participant.vote_at (Context.votes c) i) * wcoef)%Q.
Proof.
  destruct (Vote.prefs (Participant.vote_at (Context.votes c) i)) as [|p rest] eqn:Hp.
  - rewrite migrate_vote_white by done. simpl. eexists; split_and!; [done| |]; simpl.
    + done.
    + reflexivity.
  - unfold Context.migrate_vote, Vote.update. simpl. rewrite Hp. simpl.
    destruct (cycle_spec c i rest
                (Vote.weight (Participant.vote_at (Context.votes c) i) * wcoef)%Q)
      as (sk & fin & w' & ps' & Hrest & _ & Hw & -> & _).
    simpl. eexists; split_and!; [done| |done]. simpl.
    exists (p :: sk). by rewrite Hrest.
Qed.

Lemma migrate_vote_wears wcoef c i :
  wears (Context.votes c) (Context.votes (state_of (Context.migrate_vote wcoef c i))) ∧
  ((wcoef == 1)%Q →
   same_weights (Context.votes c)
     (Context.votes (state_of (Context.migrate_vote wcoef c i)))).
Proof.
  destruct (migrate_vote_prefs wcoef c i) as (v' & -> & Hsuf & Hw).
  unfold Participant.vote_at in *.
  destruct (Context.votes c !! i) as [v|] eqn:Hv; simpl in *.
  - assert (Hi : (i < length (Context.votes c))%nat) by by eapply lookup_lt_Some.
    split; [|intros H1]; (split; [by rewrite length_insert|]); intros j u u' Hu Hu';
      (destruct (decide (i = j)) as [->|Hne];
       [rewrite list_lookup_insert_eq in Hu' by done; injection Hu' as <-;
        rewrite Hv in Hu; injection Hu as <-
       |rewrite list_lookup_insert_ne in Hu' by done;
        rewrite Hu in Hu'; injection Hu' as ->]); try done.
    rewrite Hw, H1. ring.
  - rewrite list_insert_ge by by apply lookup_ge_None.
    split; [apply wears_refl | intros _; apply same_weights_refl].
Qed.

Lemma migrate_wears c h source wcoef :
  wears (Context.votes c) (Context.votes (state_of (Context.migrate c h source wcoef))) ∧
  ((wcoef == 1)%Q →
   same_weights (Context.votes c)
     (Context.votes (state_of (Context.migrate c h source wcoef)))).
Proof.
  rewrite migrate_votes_of.
  pose proof (for_each_inv (Context.migrate_vote wcoef)
    (λ _ c', wears (Context.votes c) (Context.votes c') ∧
             ((wcoef == 1)%Q → same_weights (Context.votes c) (Context.votes c')))
    (λ _ c', wears (Context.votes c) (Context.votes c') ∧
             ((wcoef == 1)%Q → same_weights (Context.votes c) (Context.votes c'))))
    as Hloop.
  specialize (Hloop) with (l := Participant.votes source) (a := c).
  destruct (for_each _ _ c) as [c'|e c']; simpl;
    apply Hloop;
    try (split; [apply wears_refl | intros _; apply same_weights_refl]);
    intros a x _ [Ha Hs];
    destruct (migrate_vote_wears wcoef a x) as [Ha' Hs'];
    destruct (Context.migrate_vote wcoef a x) as [a'|e' a']; simpl in *;
    (split; [by eapply wears_trans
            | intros H1; eapply same_weights_trans; [by apply Hs | by apply Hs']]).
Qed.

(** X6.  A round, whether it returns or raises, never gives a vote a
    preference back: what is left of the preferences of each vote is a final
    part of what it had.  A vote without preference stays without. *)
Theorem preferences_only_shrink (c : Context.t) (i : nat) (v v' : Vote.t) :
  Context.votes c !! i = Some v →
  Context.votes (state_of (Context.election_phase c)) !! i = Some v' →
  Vote.prefs v' `suffix_of` Vote.prefs v ∧
  (Vote.is_white v = true → Vote.is_white v' = true).
Proof.
  intros Hv Hv'.
  assert (Hsuf : Vote.prefs v' `suffix_of` Vote.prefs v).
  { revert Hv'.
    destruct (election_phase_cases c)
      as [[_ ->]|[(first & rest & Hs & Hq & [[_ ->]|[_ ->]])
                 |(first & others & last & Hs & Hhd & Hlow & [[_ ->]|[_ ->]])]];
      simpl; intros Hv'; try (rewrite Hv in Hv'; by injection Hv' as ->);
      match goal with
      | H : context [Context.migrate ?c1 ?h ?s ?w] |- _ =>
          destruct (migrate_wears c1 h s w) as [[_ Hw] _]
      end; by eapply Hw. }
  split; [done|]. unfold Vote.is_white. destruct Hsuf as [k Hk].
  rewrite Hk. destruct (Vote.prefs v'); [done|]. by destruct k.
Qed.

(** X7.  A round whose leader is below the quota, whether it returns or
    raises, leaves every vote with the weight it had. *)
Theorem elimination_keeps_weights (c : Context.t) (i : nat) (v v' : Vote.t) :
  (∀ first rest,
     Context.sort_desc (Participant.count_votes (Context.votes c))
       (Context.participants c) = first :: rest →
     (Participant.count_votes (Context.votes c) first < Context.quota c)%Q) →
  Context.votes c !! i = Some v →
  Context.votes (state_of (Context.election_phase c)) !! i = Some v' →
  (Vote.weight v' == Vote.weight v)%Q.
Proof.
  intros Hlow Hv.
  destruct (election_phase_cases c)
    as [[_ ->]|[(first & rest & Hs & Hq & _)
               |(first & others & last & Hs & Hhd & _ & [[_ ->]|[_ ->]])]];
    simpl; intros Hv'; try (rewrite Hv in Hv'; by injection Hv' as ->).
  - exfalso. specialize (Hlow first rest Hs). by apply Qle_not_lt in Hq.
  - match goal with
    | H : context [Context.migrate ?c1 ?h ?s ?w] |- _ =>
        destruct (migrate_wears c1 h s w) as [_ Hw]
    end. destruct Hw as [_ Hw]; [reflexivity|]. by eapply Hw.
  - match goal with
    | H : context [Context.migrate ?c1 ?h ?s ?w] |- _ =>
        destruct (migrate_wears c1 h s w) as [_ Hw]
    end. destruct Hw as [_ Hw]; [reflexivity|]. by eapply Hw.
Qed.

Lemma elimination_keeps_weights_witness :
  (∀ first rest,
     Context.sort_desc (Participant.count_votes (Context.votes two_for_one_seat))
       (Context.participants two_for_one_seat) = first :: rest →
     (Participant.count_votes (Context.votes two_for_one_seat) first
        < Context.quota two_for_one_seat)%Q) ∧
  Context.votes two_for_one_seat !! 2%nat = Some (Vote.new ["B"; "A"]) ∧
  ∀ v', Context.votes (state_of (Context.election_phase two_for_one_seat)) !! 2%nat
          = Some v' → (Vote.weight v' == 1)%Q.
Proof.
  assert (Hlow : ∀ first rest,
     Context.sort_desc (Participant.count_votes (Context.votes two_for_one_seat))
       (Context.participants two_for_one_seat) = first :: rest →
     (Participant.count_votes (Context.votes two_for_one_seat) first
        < Context.quota two_for_one_seat)%Q).
  { intros first rest H. injection H as <- _. reflexivity. }
  split_and!; [exact Hlow | reflexivity |].
  intros v' Hv'.
  apply (elimination_keeps_weights two_for_one_seat 2 (Vote.new ["B"; "A"]) v'
           Hlow eq_refl Hv').
Defined.

Lemma preferences_only_shrink_witness :
  Context.votes six_assigned !! 0%nat = Some (Vote.new ["A"; "B"]) ∧
  Context.votes (state_of (Context.election_phase six_assigned)) !! 0%nat
    = Some (Vote.mk ["B"] (1 * ((4 - 3) / 4))) ∧
  ["B"] `suffix_of` ["A"; "B"].
Proof.
  split_and!; [reflexivity | reflexivity |].
  apply (preferences_only_shrink six_assigned 0 (Vote.new ["A"; "B"])
           (Vote.mk ["B"] (1 * ((4 - 3) / 4))) eq_refl eq_refl).
Defined.

(** ** Counting votes *)

Lemma total_weight_app store l k :
  (total_weight store (l ++ k) == total_weight store l + total_weight store k)%Q.
Proof.
  unfold total_weight. rewrite fold_left_app.
  generalize (fold_left (λ ret i, ret + Vote.weight (Participant.vote_at store i))%Q l 0%Q).
  induction k as [|i k IH] using rev_ind; intros a; simpl; [ring|].
  rewrite !fold_left_app. simpl. rewrite IH. ring.
Qed.

(** X8.  The count of a participant after [add_vote] is its count before
    plus the weight of the vote added; a new participant and a cleared one
    count 0. *)
Theorem count_votes_add_vote (store : list Vote.t) (p : Participant.t) (i : nat)
    (name : string) :
  (Participant.count_votes store (Participant.add_vote i p)
     == Participant.count_votes store p
        + Vote.weight (Participant.vote_at store i))%Q ∧
  (Participant.count_votes store (Participant.clear p) == 0)%Q ∧
  (Participant.count_votes store (Participant.new name) == 0)%Q.
Proof.
  split_and!; [|reflexivity|reflexivity].
  change (Participant.count_votes store (Participant.add_vote i p))
    with (total_weight store (Participant.votes p ++ [i])).
  rewrite total_weight_app. unfold total_weight at 2. simpl.
  change (total_weight store (Participant.votes p))
    with (Participant.count_votes store p). ring.
Qed.

(** ** Who holds which vote *)

Lemma owned_lookup ps k q i :
  ps !! k = Some q → i ∈ Participant.votes q → i ∈ owned ps.
Proof.
  intros Hk Hi. apply list_elem_of_bind. exists q. split; [done|].
  by eapply list_elem_of_lookup_2.
Qed.

Lemma owned_one_holder ps k k' q q' i :
  NoDup (owned ps) → ps !! k = Some q → ps !! k' = Some q' →
  i ∈ Participant.votes q → i ∈ Participant.votes q' → k = k'.
Proof.
  unfold owned. revert k k'.
  induction ps as [|p ps IH]; intros k k' Hnd Hk Hk' Hi Hi'; [done|].
  simpl in Hnd. apply NoDup_app in Hnd as (Hp & Hdisj & Hps).
  destruct k as [|k], k' as [|k']; simpl in *; try done.
  - injection Hk as ->. exfalso. eapply Hdisj; [done|]. by eapply owned_lookup.
  - injection Hk' as ->. exfalso. eapply Hdisj; [done|]. by eapply owned_lookup.
  - f_equal. by eapply IH.
Qed.

Lemma grows_refl ps : grows ps ps.
Proof. apply Forall2_same_length_lookup. split; [done|]. intros i x y H1 H2.
  rewrite H1 in H2. injection H2 as ->. done. Qed.

Lemma grows_trans ps1 ps2 ps3 : grows ps1 ps2 → grows ps2 ps3 → grows ps1 ps3.
Proof.
  unfold grows. intros H12 H23. revert ps3 H23.
  induction H12 as [|q q' ps1 ps2 [Hn Hv] _ IH]; intros ps3 H23.
  - by apply Forall2_nil_inv_l in H23 as ->.
  - apply Forall2_cons_inv_l in H23 as (q'' & ps3' & [Hn' Hv'] & H23 & ->).
    constructor; [|by apply IH]. split; [congruence | by etrans].
Qed.

Lemma grows_add_vote i k ps : grows ps (alter (Participant.add_vote i) k ps).
Proof.
  unfold grows. revert k. induction ps as [|p ps IH]; intros [|k]; simpl.
  - constructor.
  - constructor.
  - constructor; [|apply grows_refl]. split; [done|]. by apply prefix_app_r.
  - constructor; [done | apply IH].
Qed.

Lemma migrate_vote_grows wcoef c i :
  grows (Context.participants c)
        (Context.participants (state_of (Context.migrate_vote wcoef c i))).
Proof.
  destruct (Vote.prefs (Participant.vote_at (Context.votes c) i)) as [|p rest] eqn:Hp.
  - rewrite migrate_vote_white by done. apply grows_refl.
  - unfold Context.migrate_vote, Vote.update. simpl. rewrite Hp. simpl.
    destruct (cycle_spec c i rest
                (Vote.weight (Participant.vote_at (Context.votes c) i) * wcoef)%Q)
      as (sk & fin & w' & ps' & _ & _ & _ & -> & Hfin).
    simpl. destruct fin as [|n r]; [rewrite Hfin; apply grows_refl|].
    destruct Hfin as (k & _ & ->). apply grows_add_vote.
Qed.

Lemma migrate_votes_grows wcoef l c :
  grows (Context.participants c)
        (Context.participants (state_of (for_each (Context.migrate_vote wcoef) l c))).
Proof.
  pose proof (for_each_inv (Context.migrate_vote wcoef)
    (λ _ c', grows (Context.participants c) (Context.participants c'))
    (λ _ c', grows (Context.participants c) (Context.participants c'))) as Hloop.
  specialize (Hloop) with (l := l) (a := c).
  destruct (for_each _ _ c) as [c'|e c']; simpl; apply Hloop;
    try apply grows_refl; intros a x _ Ha;
    pose proof (migrate_vote_grows wcoef a x) as Hg;
    destruct (Context.migrate_vote wcoef a x) as [a'|e' a']; simpl in *;
    by eapply grows_trans.
Qed.

(** The loop of [migrate] keeps every vote with the participant its first
    preference names. *)
Lemma migrate_votes_faithful wcoef l c :
  NoDup (l ++ owned (Context.participants c)) →
  (∀ i, i ∈ l ++ owned (Context.participants c) → live (Context.votes c) i) →
  faithful (Context.votes c) (Context.participants c) →
  ∃ c', for_each (Context.migrate_vote wcoef) l c = Ok c' ∧
        sound c' ∧ faithful (Context.votes c') (Context.participants c').
Proof.
  intros Hnd Hlive Hfaith.
  destruct (migrate_votes_spec wcoef l c Hnd Hlive)
    as (c' & Hloop & Hfr & Hnd' & Hlive' & Hsub & Hsame & Hmoved).
  pose proof (migrate_votes_grows wcoef l c) as Hgrows. rewrite Hloop in Hgrows.
  simpl in *. exists c'. split; [done|]. split; [by split|].
  intros p' i Hp' Hi.
  apply list_elem_of_lookup in Hp' as [k Hk].
  assert (Hown : i ∈ owned (Context.participants c')) by by eapply owned_lookup.
  destruct (decide (i ∈ l)) as [Hil|Hil].
  - destruct (Hmoved i Hil) as (u & u' & p & sk & _ & Hu' & _ & _ & _ & Hend).
    exists u'. split; [done|]. unfold Vote.first_choice.
    destruct (Vote.prefs u') as [|n r]; [done|].
    destruct Hend as (k2 & q2 & _ & Hk2 & Hn2 & Hi2).
    assert (k2 = k) as -> by by eapply owned_one_holder.
    rewrite Hk in Hk2. injection Hk2 as <-. congruence.
  - destruct (Hsub i Hown) as [?|Hold]; [done|].
    apply list_elem_of_bind in Hold as (q & Hiq & Hq).
    apply list_elem_of_lookup in Hq as [k0 Hk0].
    destruct (Forall2_lookup_l _ _ _ _ _ Hgrows Hk0) as (q' & Hk0' & Hn & Hpre).
    assert (Hiq' : i ∈ Participant.votes q').
    { destruct Hpre as [ext ->]. apply elem_of_app. by left. }
    assert (k0 = k) as -> by by eapply owned_one_holder.
    rewrite Hk in Hk0'. injection Hk0' as <-.
    destruct (Hfaith q i) as (v & Hv & Hfc); [by eapply list_elem_of_lookup_2|done|].
    exists v. rewrite Hsame by done. split; [done|]. congruence.
Qed.

Lemma election_phase_faithful c c' :
  sound c → faithful (Context.votes c) (Context.participants c) →
  Context.election_phase c = Ok c' →
  sound c' ∧ faithful (Context.votes c') (Context.participants c').
Proof.
  intros [Hnd Hlive] Hfaith.
  pose proof (owned_sort (Participant.count_votes (Context.votes c))
                (Context.participants c)) as Hperm.
  pose proof (sort_desc_perm (Participant.count_votes (Context.votes c))
                (Context.participants c)) as Hperm'.
  assert (Hrun : ∀ c1 h source wcoef,
            Context.votes c1 = Context.votes c →
            Participant.votes source ++ owned (Context.participants c1)
              ⊆ owned (Context.participants c) →
            NoDup (Participant.votes source ++ owned (Context.participants c1)) →
            Context.participants c1 ⊆ Context.participants c →
            Context.migrate c1 h source wcoef = Ok c' →
            sound c' ∧ faithful (Context.votes c') (Context.participants c')).
  { intros c1 h source wcoef Hv Hsub Hnd1 Hps Hrun.
    destruct (migrate_votes_faithful wcoef (Participant.votes source) c1)
      as (c2 & Hloop & [Hnd2 Hlive2] & Hf2); [done| | |].
    - intros i Hi. rewrite Hv. by apply Hlive, Hsub.
    - intros p i Hp Hi. rewrite Hv. apply Hfaith; [by apply Hps|done].
    - unfold Context.migrate in Hrun. rewrite Hloop in Hrun. simpl in Hrun.
      injection Hrun as <-.
      destruct (clear_source_frame h c2) as (_ & _ & _ & Hv' & Hp' & _).
      unfold sound. by rewrite Hv', Hp'. }
  destruct (election_phase_cases c)
    as [[_ ->]|[(first & rest & Hs & Hv & [[_ ->]|[_ ->]])
               |(first & others & last & Hs & _ & _ & [[_ ->]|[_ ->]])]];
    try done; apply Hrun; simpl; try done;
    rewrite Hs in Hperm, Hperm'; rewrite ?owned_app in Hperm; simpl in Hperm;
    rewrite ?app_nil_r in *.
  - intros i Hi. by rewrite <- Hperm.
  - by rewrite Hperm.
  - intros p Hp. rewrite <- Hperm'. by right.
  - intros i Hi. rewrite <- Hperm. apply elem_of_app. by right.
  - rewrite <- Hperm in Hnd. apply NoDup_app in Hnd. tauto.
  - intros p Hp. by apply elem_of_nil in Hp.
  - intros i Hi. rewrite <- Hperm. by rewrite Permutation_app_comm.
  - rewrite <- Hperm in Hnd. by rewrite Permutation_app_comm.
  - intros p Hp. rewrite <- Hperm'. apply elem_of_app. by left.
Qed.

(** ** Ownership at the round boundaries *)

Lemma elem_of_alter {A} (f : A → A) k (l : list A) x :
  x ∈ alter f k l → x ∈ l ∨ ∃ y, l !! k = Some y ∧ x = f y.
Proof.
  intros [j Hj]%list_elem_of_lookup. rewrite list_lookup_alter in Hj.
  case_decide as Hk.
  - subst j. destruct (l !! k) as [y|]; [|done]. injection Hj as <-.
    right. by exists y.
  - left. by eapply list_elem_of_lookup_2.
Qed.

Lemma assign_votes_faithful c c1 :
  Context.assign_votes c = Ok c1 →
  owned (Context.participants c) = [] →
  faithful (Context.votes c1) (Context.participants c1).
Proof.
  unfold Context.assign_votes. intros Hc1 Hown.
  pose proof (for_each_inv Context.assign_vote
    (λ todo ps, (∀ iv, iv ∈ todo → Context.votes c !! iv.1 = Some iv.2) ∧
                faithful (Context.votes c) ps)
    (λ _ _, True)) as Hloop.
  specialize (Hloop) with (l := imap pair (Context.votes c)) (a := Context.participants c).
  destruct (for_each _ _ _) as [ps|e ps]; [|done]. injection Hc1 as <-.
  simpl. apply Hloop.
  - intros a [i v] todo [Hin Hf]. unfold Context.assign_vote. simpl.
    destruct (Context.find_participant a _) as [k|] eqn:Hk; [|done].
    destruct (find_participant_Some _ _ _ Hk) as (q & Hq & Hname).
    split; [intros iv Hiv; apply Hin; by right|].
    intros p j [Hp|(y & Hy & ->)]%elem_of_alter Hj; [by apply Hf|].
    rewrite Hq in Hy. injection Hy as <-. simpl in Hj.
    apply elem_of_app in Hj as [Hj|Hj].
    + apply (Hf q); [by eapply list_elem_of_lookup_2|done].
    + apply list_elem_of_singleton in Hj as ->. exists v. split; [|done].
      apply (Hin (i, v)). by left.
  - split.
    + intros [i v] (j & y & [= -> ->] & Hy)%elem_of_lookup_imap. done.
    + intros p i Hp Hi. exfalso.
      apply list_elem_of_lookup in Hp as [k Hk].
      pose proof (owned_lookup _ _ _ _ Hk Hi) as Ho. rewrite Hown in Ho.
      by apply elem_of_nil in Ho.
Qed.

Lemma boundary_sound pnames seats ballots c0 n c :
  Context.init pnames seats ballots = inr c0 →
  boundary c0 n c →
  sound c ∧ faithful (Context.votes c) (Context.participants c).
Proof.
  intros Hinit Hb. induction Hb as [c Hc|n c c' Hb IH Hnc Hc'].
  - apply init_inr in Hinit. split.
    + apply (assign_votes_sound c0 c Hc); subst c0; simpl.
      * apply owned_get_participants.
      * intros i v Hv. by apply destroy_white_votes_live in Hv as (? & _).
    + apply (assign_votes_faithful c0 c Hc). subst c0.
      apply owned_get_participants.
  - destruct IH as [Hs Hf]. by eapply election_phase_faithful.
Qed.

(** X9.  At every round boundary of an election, no vote is held twice by
    the participants still running, and every vote one of them holds exists
    and names its holder as first preference. *)
Theorem ballots_follow_first_choice (pnames : list string) (seats : Z)
    (ballots : list (list string)) (c0 c : Context.t) (n : nat) :
  Context.init pnames seats ballots = inr c0 →
  boundary c0 n c →
  NoDup (owned (Context.participants c)) ∧
  ∀ p i, p ∈ Context.participants c → i ∈ Participant.votes p →
    ∃ v, Context.votes c !! i = Some v ∧
         Vote.first_choice v = Some (Participant.name p).
Proof.
  intros Hinit Hb.
  destruct (boundary_sound _ _ _ _ _ _ Hinit Hb) as [[Hnd _] Hf]. by split.
Qed.

(** ** The quota against the votes *)

Lemma total_weight_bound store l :
  (∀ i, i ∈ l → (0 <= Vote.weight (Participant.vote_at store i) <= 1)%Q) →
  (0 <= total_weight store l <= inject_Z (Z.of_nat (length l)))%Q.
Proof.
  induction l as [|i l IH] using rev_ind; intros H.
  - unfold total_weight. simpl. split; apply Qle_refl.
  - rewrite total_weight_app, length_app, Nat2Z.inj_add, inject_Z_plus.
    unfold total_weight at 2 4. simpl.
    destruct IH as [IH0 IH1].
    { intros j Hj. apply H. apply elem_of_app. by left. }
    destruct (H i) as [Hi0 Hi1]; [apply elem_of_app; right; by left|].
    change (inject_Z (Z.of_nat 1)) with 1%Q. split; lra.
Qed.

Lemma tally_owned store ps : (tally store ps == total_weight store (owned ps))%Q.
Proof.
  induction ps as [|p ps IH]; [reflexivity|].
  unfold owned. simpl. fold (owned ps). rewrite total_weight_app, IH. reflexivity.
Qed.

Lemma tally_filter store (P : Participant.t → bool) ps :
  (∀ p, p ∈ ps → (0 <= Participant.count_votes store p)%Q) →
  (tally store (List.filter P ps) <= tally store ps)%Q.
Proof.
  induction ps as [|p ps IH]; intros H; simpl; [apply Qle_refl|].
  assert (tally store (List.filter P ps) <= tally store ps)%Q as IH'.
  { apply IH. intros q Hq. apply H. by right. }
  assert (0 <= Participant.count_votes store p)%Q as Hp by (apply H; by left).
  destruct (P p); simpl; lra.
Qed.

Lemma tally_at_least store (q : Q) ps :
  (∀ p, p ∈ ps → (q <= Participant.count_votes store p)%Q) →
  (inject_Z (Z.of_nat (length ps)) * q <= tally store ps)%Q.
Proof.
  induction ps as [|p ps IH]; intros H.
  - simpl. rewrite Qmult_0_l. apply Qle_refl.
  - cbn [length tally foldr]. rewrite Nat2Z.inj_succ. unfold Z.succ.
    rewrite inject_Z_plus. change (inject_Z 1) with 1%Q.
    assert (inject_Z (Z.of_nat (length ps)) * q <= tally store ps)%Q as IH'.
    { apply IH. intros r Hr. apply H. by right. }
    assert (q <= Participant.count_votes store p)%Q as Hp by (apply H; by left).
    unfold tally in IH'. lra.
Qed.

Lemma compute_quota_above nvotes seats :
  (0 <= seats)%Z →
  (inject_Z (Z.of_nat nvotes)
     < Context.compute_quota nvotes seats * inject_Z (seats + 1))%Q.
Proof.
  intros Hs. unfold Context.compute_quota. cbv zeta.
  assert (Hb : (0 < inject_Z (seats + 1))%Q).
  { change 0%Q with (inject_Z 0). rewrite <- Zlt_Qlt. lia. }
  pose proof (Qle_ceiling (1 + inject_Z (Z.of_nat nvotes) / inject_Z (seats + 1))) as Hc.
  set (q := inject_Z (Qceiling _)) in *.
  assert (inject_Z (Z.of_nat nvotes) / inject_Z (seats + 1) < q)%Q as Hlt by lra.
  apply (Qmult_lt_r _ _ _ Hb) in Hlt.
  assert (inject_Z (Z.of_nat nvotes) / inject_Z (seats + 1) * inject_Z (seats + 1)
          == inject_Z (Z.of_nat nvotes))%Q as Heq.
  { field. intros H. rewrite H in Hb. by apply Qlt_irrefl in Hb. }
  by rewrite Heq in Hlt.
Qed.

Lemma boundary_fades pnames seats ballots c0 n c :
  Context.init pnames seats ballots = inr c0 → (0 <= seats)%Z →
  boundary c0 n c →
  fades (Context.votes c0) (Context.votes c).
Proof.
  intros Hinit Hs Hb. induction Hb as [c Hc|n c c' Hb IH Hnc Hc'].
  - apply boundary_start_inv in Hc as (ps & -> & _). apply fades_refl.
  - destruct (boundary_weights _ _ _ _ _ _ Hinit Hs Hb) as [Hq Hnn].
    pose proof (election_phase_fades c Hq Hnn) as [_ Hf]. rewrite Hc' in Hf.
    by eapply fades_trans.
Qed.

(** X10.  At every round boundary of an election built with [seats >= 0],
    at most [seats] of the participants still running have a count of votes
    that reaches the quota. *)
Theorem quota_bounds_leaders (pnames : list string) (seats : Z)
    (ballots : list (list string)) (c0 c : Context.t) (n : nat) :
  Context.init pnames seats ballots = inr c0 → (0 <= seats)%Z →
  boundary c0 n c →
  (Z.of_nat (length (at_quota c)) <= seats)%Z.
Proof.
  intros Hinit Hs Hb.
  destruct (boundary_sound _ _ _ _ _ _ Hinit Hb) as [[Hnd Hlive] _].
  destruct (boundary_weights _ _ _ _ _ _ Hinit Hs Hb) as [Hq Hnn].
  destruct (boundary_fades _ _ _ _ _ _ Hinit Hs Hb) as [Hlen Hfades].
  destruct (boundary_frame _ _ _ _ _ _ Hinit Hb) as (_ & Hquota & _ & _).
  pose proof (compute_quota_above (length (Context.votes c0)) seats Hs) as Habove.
  rewrite <- Hquota in Habove.
  assert (Hw : ∀ i, (0 <= Vote.weight (Participant.vote_at (Context.votes c) i) <= 1)%Q).
  { intros i. unfold Participant.vote_at.
    destruct (Context.votes c !! i) as [v|] eqn:Hv; simpl; [|split; lra].
    split; [by eapply Hnn|].
    destruct (lookup_lt_is_Some_2 (Context.votes c0) i) as [v0 Hv0].
    { rewrite <- Hlen. by eapply lookup_lt_Some. }
    eapply Qle_trans; [exact (Hfades i v0 v Hv0 Hv)|].
    apply init_inr in Hinit. subst c0. simpl in Hv0.
    apply destroy_white_votes_live in Hv0 as (_ & Hone & _).
    rewrite Hone. apply Qle_refl. }
  assert (Hcount : ∀ p, (0 <= Participant.count_votes (Context.votes c) p)%Q).
  { intros p. apply (total_weight_bound (Context.votes c) (Participant.votes p)).
    intros i _. apply Hw. }
  assert (Hall : (tally (Context.votes c) (Context.participants c)
                    <= inject_Z (Z.of_nat (length (Context.votes c0))))%Q).
  { rewrite tally_owned.
    destruct (total_weight_bound (Context.votes c) (owned (Context.participants c)))
      as [_ Hle]; [intros i _; apply Hw|].
    eapply Qle_trans; [exact Hle|]. rewrite <- Zle_Qle. apply inj_le.
    rewrite <- (length_seq (length (Context.votes c0)) 0).
    apply submseteq_length, NoDup_submseteq; [done|].
    intros i Hi. apply elem_of_seq. destruct (Hlive i Hi) as (v & Hv & _).
    apply lookup_lt_Some in Hv. lia. }
  assert (Hmeet : (inject_Z (Z.of_nat (length (at_quota c))) * Context.quota c
                     <= tally (Context.votes c) (at_quota c))%Q).
  { apply tally_at_least. intros p Hp. unfold at_quota in Hp.
    apply list_elem_of_In, filter_In in Hp as [_ Hp]. by apply Qle_bool_iff. }
  assert (Hsub : (tally (Context.votes c) (at_quota c)
                    <= tally (Context.votes c) (Context.participants c))%Q).
  { apply tally_filter. intros p _. apply Hcount. }
  assert (inject_Z (Z.of_nat (length (at_quota c))) < inject_Z (seats + 1))%Q as Hlt.
  { apply (Qmult_lt_r _ _ _ Hq). rewrite (Qmult_comm (inject_Z (seats + 1))). lra. }
  rewrite <- Zlt_Qlt in Hlt. lia.
Qed.

Lemma quota_bounds_leaders_witness :
  Context.init ["A"; "B"; "C"] 2 six_ballots = inr six_election ∧
  (0 <= 2)%Z ∧
  boundary six_election 0 six_assigned ∧
  (Z.of_nat (length (at_quota six_assigned)) <= 2)%Z.
Proof.
  assert (Hb : boundary six_election 0 six_assigned)
    by (apply boundary_start; reflexivity).
  split_and!; [reflexivity | lia | exact Hb |].
  apply (quota_bounds_leaders ["A"; "B"; "C"] 2 six_ballots six_election
           six_assigned 0 eq_refl ltac:(lia) Hb).
Defined.

Lemma ballots_follow_first_choice_witness :
  Context.init ["A"; "B"; "C"] 2 six_ballots = inr six_election ∧
  boundary six_election 0 six_assigned ∧
  NoDup (owned (Context.participants six_assigned)).
Proof.
  assert (Hb : boundary six_election 0 six_assigned)
    by (apply boundary_start; reflexivity).
  split_and!; [reflexivity | exact Hb |].
  apply (ballots_follow_first_choice ["A"; "B"; "C"] 2 six_ballots six_election
           six_assigned 0 eq_refl Hb).
Defined.

(** ** Too few candidates left for the seats *)

Lemma short_step c :
  short c → Context.participants c ≠ [] →
  ∃ c', Context.election_phase c = Ok c' ∧ short c' ∧
        Context.phase c' = S (Context.phase c) ∧
        S (length (Context.participants c')) = length (Context.participants c).
Proof.
  intros (Hsound & Hq & Hlt) Hne.
  destruct (election_phase_sound c Hsound Hq Hne) as (c' & Hc' & Hsound').
  exists c'.
  pose proof (election_phase_transition _ _ Hc') as (Ht & Hs' & Hq' & Hph & _).
  split; [done|].
  assert (Hcount :
    S (length (Context.participants c')) = length (Context.participants c) ∧
    (Z.of_nat (length (Context.winners c') + length (Context.participants c'))
       < Context.seats c)%Z).
  { destruct Ht as [x HA HW HE|x HA HW HE Hno|x rest HA HA' HW HE Hfill];
      rewrite <- !names_length in *; rewrite ?HW, ?length_app in *;
      rewrite HA in Hlt |- *; simpl in *; lia. }
  destruct Hcount as [Hone Hlt'].
  split; [|done]. unfold short. rewrite Hq', Hs'. done.
Qed.

Lemma short_rounds fuel c :
  short c → (length (Context.participants c) < fuel)%nat →
  ∃ c', Context.rounds fuel c = Some (Raise IndexError c') ∧
        Context.participants c' = [] ∧
        Context.phase c' = S (Context.phase c + length (Context.participants c)).
Proof.
  revert c. induction fuel as [|fuel IH]; intros c Hshort Hfuel; [lia|].
  simpl.
  assert (Context.complete c = false) as ->.
  { destruct Hshort as (_ & _ & Hlt). unfold Context.complete. apply Z.eqb_neq. lia. }
  destruct (Context.participants c) as [|p ps] eqn:Hps.
  - rewrite (election_phase_empty c Hps). eexists. split; [done|]. simpl.
    split; [done|lia].
  - destruct (short_step _ Hshort) as (c1 & -> & Hshort1 & Hph & Hone);
      [by rewrite Hps|].
    rewrite Hps in Hone. simpl in *.
    destruct (IH c1 Hshort1) as (c' & -> & Hnil & Hph'); [lia|].
    exists c'. split_and!; [done|done|lia].
Qed.

(** X11.  With as many seats as candidates, an election whose first round
    finds its leader below the quota never completes: the rounds go on
    until no participant is left and the next round raises IndexError. *)
Theorem full_house_raises (pnames : list string) (seats : Z)
    (ballots : list (list string)) (c0 c1 : Context.t)
    (first : Participant.t) (rest : list Participant.t) (fuel : nat) :
  Context.init pnames seats ballots = inr c0 →
  Context.assign_votes c0 = Ok c1 →
  seats = Z.of_nat (length pnames) →
  Context.sort_desc (Participant.count_votes (Context.votes c1))
    (Context.participants c1) = first :: rest →
  (Participant.count_votes (Context.votes c1) first < Context.quota c1)%Q →
  (length pnames < fuel)%nat →
  ∃ c', Context.election_loop fuel c0 = Some (Raise IndexError c') ∧
        Context.participants c' = [] ∧
        Context.phase c' = S (length pnames).
Proof.
  intros Hinit Hc1 Hseats Hs Hlow Hfuel.
  destruct (init_running _ _ _ _ _ Hinit Hc1)
    as (Hsound & Hq & Hseats1 & Hw & He & Hph & Hlen); [lia|].
  unfold Context.election_loop. rewrite Hc1.
  assert (Hlen' : length (first :: rest) = length pnames).
  { rewrite <- Hlen, <- Hs. apply Permutation_length, sort_desc_perm. }
  destruct fuel as [|fuel]; [lia|]. simpl.
  assert (Context.complete c1 = false) as ->.
  { unfold Context.complete. rewrite Hw, Hseats1. apply Z.eqb_neq.
    simpl in *. lia. }
  destruct (election_phase_sound c1 Hsound Hq) as (c2 & Hc2 & Hsound2).
  { intros Hnil. rewrite Hnil in Hlen. simpl in *. lia. }
  rewrite Hc2.
  assert (Hshort : short c2 ∧ Context.phase c2 = 1%nat ∧
                   S (length (Context.participants c2)) = length pnames).
  { pose proof (election_phase_transition _ _ Hc2) as (_ & Hs2 & Hq2 & Hph2 & _).
    revert Hc2.
    destruct (election_phase_cases c1)
      as [[Hnil _]|[(first' & rest' & Hs' & Hv & _)
                 |(first' & others & last & Hs' & _ & _ & [[Hfill _]|[_ ->]])]].
    - congruence.
    - rewrite Hs in Hs'. injection Hs' as <- <-. intros _.
      exfalso. by apply Qle_not_lt in Hv.
    - exfalso. rewrite Hs in Hs'. rewrite Hs', length_app in Hlen'.
      rewrite Hw, Hseats1 in Hfill. simpl in *. lia.
    - intros (_ & _ & _ & _ & Hp & Hw2 & _)%migrate_frame.
      rewrite Hs in Hs'. rewrite Hs', length_app in Hlen'. simpl in *.
      assert (length (Context.participants c2) = length others) as HA
        by (rewrite <- !names_length; by rewrite Hp).
      assert (length (Context.winners c2) = 0%nat) as HW
        by (rewrite <- names_length, Hw2, Hw; done).
      split_and!; [|congruence|lia].
      unfold short. rewrite Hq2, Hs2, HA, HW, Hseats1. split_and!; [done|done|lia]. }
  destruct Hshort as (Hshort & Hph2 & Hone).
  destruct (short_rounds fuel c2 Hshort) as (c' & -> & Hnil & Hph'); [lia|].
  exists c'. split_and!; [done|done|lia].
Qed.

Lemma full_house_raises_witness :
  Context.init ["A"; "B"] 2 [["A"]; ["B"]]
    = inr (Context.mk (Context.get_participants ["A"; "B"]) 2
             (Context.get_votes [["A"]; ["B"]]) [] [] 0 2) ∧
  ∃ c', Context.election_loop 3
          (Context.mk (Context.get_participants ["A"; "B"]) 2
             (Context.get_votes [["A"]; ["B"]]) [] [] 0 2)
          = Some (Raise IndexError c') ∧
        Context.participants c' = [] ∧
        Context.phase c' = 3%nat.
Proof.
  split; [reflexivity|].
  apply (full_house_raises ["A"; "B"] 2 [["A"]; ["B"]]
           (Context.mk (Context.get_participants ["A"; "B"]) 2
              (Context.get_votes [["A"]; ["B"]]) [] [] 0 2)
           (Context.mk [Participant.mk "A" [0]; Participant.mk "B" [1]] 2
              (Context.get_votes [["A"]; ["B"]]) [] [] 0 2)
           (Participant.mk "A" [0]) [Participant.mk "B" [1]] 3);
    try reflexivity. simpl. lia.
Defined.

(** ** An election without a valid ballot *)

Lemma sort_desc_no_votes store l :
  (∀ p, p ∈ l → Participant.votes p = []) →
  Context.sort_desc (Participant.count_votes store) l = l.
Proof.
  induction l as [|p l IH]; intros H; [done|]. simpl.
  rewrite IH by (intros q Hq; apply H; by right).
  destruct l as [|q l]; [done|]. simpl.
  unfold Participant.count_votes.
  rewrite (H p) by by left. rewrite (H q) by (right; by left). done.
Qed.

Lemma migrate_no_votes c h source wcoef :
  Participant.votes source = [] →
  Context.migrate c h source wcoef = Ok (Context.clear_source h c).
Proof. intros H. unfold Context.migrate. by rewrite H. Qed.

Lemma election_phase_no_votes c others last :
  Context.participants c = others ++ [last] →
  (∀ p, p ∈ others ++ [last] → Participant.votes p = []) →
  (0 < Context.quota c)%Q →
  ∃ c', Context.election_phase c = Ok c' ∧
        Context.seats c' = Context.seats c ∧
        Context.quota c' = Context.quota c ∧
        Context.phase c' = S (Context.phase c) ∧
        names (Context.eliminated c')
          = names (Context.eliminated c) ++ [Participant.name last] ∧
        if (Z.of_nat (length (Context.winners c) + length others) =? Context.seats c)%Z
        then Context.participants c' = [] ∧
             Context.winners c' = Context.winners c ++ others
        else Context.participants c' = others ∧
             Context.winners c' = Context.winners c.
Proof.
  intros Hps Hnone Hq.
  pose proof (sort_desc_no_votes (Context.votes c) (others ++ [last]) Hnone) as Hsort.
  rewrite <- Hps in Hsort.
  assert (Hlast : Participant.votes last = [])
    by (apply Hnone, elem_of_app; right; by left).
  destruct (election_phase_cases c)
    as [[Hnil _]|[(first & rest & Hs & Hv & _)
               |(first & others' & last' & Hs & _ & _ & [[Hfill ->]|[Hfill ->]])]].
  - rewrite Hsort, Hps in Hnil. by destruct others.
  - exfalso. assert (Participant.votes first = []) as Hf.
    { apply Hnone. rewrite <- Hps, <- Hsort, Hs. by left. }
    unfold Participant.count_votes in Hv. rewrite Hf in Hv. simpl in Hv.
    by apply Qle_not_lt in Hv.
  - rewrite Hsort, Hps in Hs. apply app_inj_tail in Hs as [<- <-].
    rewrite migrate_no_votes by done. eexists. split; [done|]. simpl.
    apply Z.eqb_eq in Hfill. rewrite Hfill.
    split_and!; try done. by rewrite names_alter_last, names_app.
  - rewrite Hsort, Hps in Hs. apply app_inj_tail in Hs as [<- <-].
    rewrite migrate_no_votes by done. eexists. split; [done|]. simpl.
    apply Z.eqb_neq in Hfill. rewrite Hfill.
    split_and!; try done. by rewrite names_alter_last, names_app.
Qed.

Lemma rounds_no_votes l2 : ∀ l1 c,
  Context.participants c = l1 ++ l2 → l2 ≠ [] →
  (∀ p, p ∈ l1 ++ l2 → Participant.votes p = []) →
  Context.winners c = [] →
  Z.of_nat (length l1) = Context.seats c → l1 ≠ [] →
  (0 < Context.quota c)%Q →
  ∃ c', Context.rounds (length l2) c = Some (Ok c') ∧
        Context.winners c' = l1 ∧
        names (Context.eliminated c')
          = names (Context.eliminated c) ++ rev (names l2) ∧
        Context.participants c' = [] ∧
        Context.phase c' = (Context.phase c + length l2)%nat.
Proof.
  induction l2 as [|x l2 IH] using rev_ind; intros l1 c Hps Hne Hnone Hw Hseats Hl1 Hq;
    [done|].
  rewrite length_app. simpl. replace (length l2 + 1)%nat with (S (length l2)) by lia.
  simpl.
  assert (Context.complete c = false) as ->.
  { unfold Context.complete. rewrite Hw. apply Z.eqb_neq. simpl.
    destruct l1; [done|]. simpl in *. lia. }
  rewrite app_assoc in Hps, Hnone.
  destruct (election_phase_no_votes c (l1 ++ l2) x Hps Hnone Hq)
    as (c1 & -> & Hs1 & Hq1 & Hph1 & He1 & Hlists).
  rewrite Hw, length_app in Hlists. simpl in Hlists.
  destruct l2 as [|y l2].
  - rewrite app_nil_r in *. simpl in *.
    rewrite Nat.add_0_r, Hseats, Z.eqb_refl in Hlists. destruct Hlists as [HA HW].
    assert (Context.complete c1 = true) as Hdone.
    { unfold Context.complete. rewrite HW, Hs1. by apply Z.eqb_eq. }
    exists c1. rewrite Hdone. split_and!; try done. lia.
  - assert ((Z.of_nat (length l1 + length (y :: l2)) =? Context.seats c)%Z = false)
      as Hno by (apply Z.eqb_neq; simpl; lia).
    rewrite Hno in Hlists. destruct Hlists as [HA HW].
    destruct (IH l1 c1) as (c' & Hr & HW' & HE' & HA' & Hph'); try done.
    + intros p Hp. apply Hnone. apply elem_of_app. by left.
    + congruence.
    + by rewrite Hq1.
    + exists c'. split_and!; try done.
      * rewrite HE', He1. unfold names. rewrite map_app, rev_app_distr. simpl.
        by rewrite <- app_assoc.
      * rewrite Hph', Hph1. simpl. lia.
Qed.

(** X12.  An election in which every ballot is blank, with at least one
    seat and more candidates than seats: [election_loop] returns after
    [candidates - seats] rounds, each an elimination of the last candidate
    of the list; the winners are the first [seats] candidates in the order
    of the list. *)
Theorem no_valid_ballot (pnames : list string) (seats : nat)
    (ballots : list (list string)) (c0 : Context.t) :
  Context.init pnames (Z.of_nat seats) ballots = inr c0 →
  (∀ b, b ∈ ballots → b = []) →
  (1 <= seats < length pnames)%nat →
  ∃ c', Context.election_loop (length pnames - seats) c0 = Some (Ok c') ∧
        names (Context.winners c') = take seats pnames ∧
        names (Context.eliminated c') = rev (drop seats pnames) ∧
        Context.phase c' = (length pnames - seats)%nat.
Proof.
  intros Hinit Hblank Hs. apply init_inr in Hinit.
  assert (Hvotes : Context.destroy_white_votes (Context.get_votes ballots) = []).
  { clear Hinit. induction ballots as [|b bs IH]; [done|]. simpl.
    rewrite (Hblank b) by by left. simpl. apply IH.
    intros b' Hb'. apply Hblank. by right. }
  rewrite Hvotes in Hinit. simpl in Hinit.
  unfold Context.election_loop, Context.assign_votes. subst c0. simpl.
  set (c1 := Context.set_participants _ _).
  destruct (rounds_no_votes (drop seats (Context.get_participants pnames))
              (take seats (Context.get_participants pnames)) c1)
    as (c' & Hr & HW & HE & HA & Hph); try done.
  - simpl. by rewrite take_drop.
  - intros Hnil. apply (f_equal length) in Hnil.
    rewrite length_drop in Hnil. unfold Context.get_participants in Hnil.
    rewrite length_map in Hnil. simpl in Hnil. lia.
  - rewrite take_drop. intros p Hp. unfold Context.get_participants in Hp.
    apply list_elem_of_In, in_map_iff in Hp as (n & <- & _). done.
  - simpl. rewrite length_take. unfold Context.get_participants.
    rewrite length_map. lia.
  - intros Hnil. apply (f_equal length) in Hnil.
    rewrite length_take in Hnil. unfold Context.get_participants in Hnil.
    rewrite length_map in Hnil. simpl in Hnil. lia.
  - simpl. pose proof (compute_quota_pos 0 (Z.of_nat seats) ltac:(lia)). lra.
  - rewrite length_drop in Hr, Hph. unfold Context.get_participants in Hr, Hph.
    rewrite length_map in Hr, Hph.
    exists c'. split_and!; [done| | |done].
    + rewrite HW. unfold names. rewrite <- firstn_map.
      change (map Participant.name (Context.get_participants pnames))
        with (names (Context.get_participants pnames)).
      by rewrite names_get_participants.
    + rewrite HE. simpl. unfold names. rewrite <- skipn_map.
      change (map Participant.name (Context.get_participants pnames))
        with (names (Context.get_participants pnames)).
      by rewrite names_get_participants.
Qed.

Lemma no_valid_ballot_witness :
  (∀ b : list string, b ∈ [[]; []] → b = []) ∧
  ∃ c', Context.election_loop (3 - 1)
          (Context.mk (Context.get_participants ["A"; "B"; "C"]) 1 [] [] [] 0 1)
          = Some (Ok c') ∧
        names (Context.winners c') = ["A"] ∧
        names (Context.eliminated c') = ["C"; "B"] ∧
        Context.phase c' = 2%nat.
Proof.
  assert (Hblank : ∀ b : list string, b ∈ [[]; []] → b = []).
  { intros b Hb. repeat (apply elem_of_cons in Hb as [Hb|Hb]; [exact Hb|]).
    by apply elem_of_nil in Hb. }
  split; [exact Hblank|].
  apply (no_valid_ballot ["A"; "B"; "C"] 1 [[]; []]
           (Context.mk (Context.get_participants ["A"; "B"; "C"]) 1 [] [] [] 0 1)
           eq_refl Hblank). simpl. lia.
Defined.

(** ** Reading the votes file *)

Lemma append_cons (a : ascii) (s t : string) :
  String a s +:+ t = String a (s +:+ t).
Proof. reflexivity. Qed.

Lemma append_nil_l (s : string) : EmptyString +:+ s = s.
Proof. reflexivity. Qed.

Lemma append_nil_r (s : string) : s +:+ EmptyString = s.
Proof. induction s as [|a s IH]; [done|]. by rewrite append_cons, IH. Qed.

Lemma append_assoc (s t u : string) : (s +:+ t) +:+ u = s +:+ (t +:+ u).
Proof.
  induction s as [|a s IH]; [done|]. by rewrite !append_cons, IH.
Qed.

Lemma append_empty (s t : string) : s +:+ t = EmptyString → s = EmptyString.
Proof. by destruct s. Qed.

Lemma spaceless_append s t :
  spaceless (s +:+ t) = spaceless s && spaceless t.
Proof.
  induction s as [|a s IH]; [done|]. rewrite append_cons. simpl.
  rewrite IH. by destruct (is_space a).
Qed.

Lemma split_space_ok word s w :
  spaceless word = true → w ∈ split_space word s → word_ok w = true.
Proof.
  revert word. induction s as [|a s IH]; intros word Hword Hw; simpl in Hw.
  - case_decide as Hd; [by apply elem_of_nil in Hw|].
    apply list_elem_of_singleton in Hw as ->. unfold word_ok.
    rewrite Hword, bool_decide_eq_false_2; done.
  - destruct (is_space a) eqn:Ha.
    + case_decide as Hd; [by apply (IH EmptyString)|].
      apply elem_of_cons in Hw as [->|Hw]; [|by apply (IH EmptyString)].
      unfold word_ok. rewrite Hword, bool_decide_eq_false_2; done.
    + apply (IH (word +:+ String a EmptyString)); [|done].
      rewrite spaceless_append, Hword. simpl. by rewrite Ha.
Qed.

Lemma split_space_word w word s :
  spaceless w = true →
  split_space word (w +:+ s) = split_space (word +:+ w) s.
Proof.
  revert word. induction w as [|a w IH]; intros word Hw.
  - by rewrite append_nil_l, append_nil_r.
  - rewrite append_cons. simpl in *.
    apply andb_prop in Hw as [Ha Hw]. apply negb_true_iff in Ha. rewrite Ha.
    rewrite IH by done. by rewrite append_assoc.
Qed.

Lemma split_space_sep word s :
  split_space word (String " " s)
    = if decide (word = EmptyString) then split_space EmptyString s
      else word :: split_space EmptyString s.
Proof. reflexivity. Qed.

Lemma split_space_end word :
  split_space word EmptyString = if decide (word = EmptyString) then [] else [word].
Proof. reflexivity. Qed.

Lemma split_newline_sep line s :
  split_newline line (String "010" s) = line :: split_newline EmptyString s.
Proof. reflexivity. Qed.

Lemma split_space_unwords ws :
  Forall (λ w, word_ok w = true) ws →
  split_space EmptyString (unwords ws) = ws.
Proof.
  induction 1 as [|w ws Hw Hws IH]; [done|].
  unfold word_ok in Hw. apply andb_prop in Hw as [Hne Hsp].
  apply negb_true_iff, bool_decide_eq_false in Hne.
  destruct ws as [|w' ws].
  - change (unwords [w]) with w. rewrite <- (append_nil_r w) at 1.
    rewrite split_space_word, append_nil_l, split_space_end by done.
    by rewrite decide_False.
  - change (unwords (w :: w' :: ws)) with (w +:+ String " " (unwords (w' :: ws))).
    rewrite split_space_word, append_nil_l, split_space_sep by done.
    rewrite decide_False by done. by rewrite IH.
Qed.

Lemma newline_is_space a : is_newline a = true → is_space a = true.
Proof.
  unfold is_newline, is_space. intros H%Nat.eqb_eq. cbv zeta. by rewrite H.
Qed.

Lemma spaceless_lineless s : spaceless s = true → lineless s = true.
Proof.
  induction s as [|a s IH]; [done|]. cbn [spaceless lineless].
  intros [Ha Hs]%andb_prop. rewrite IH by done.
  destruct (is_newline a) eqn:E; [|done].
  apply newline_is_space in E. by rewrite E in Ha.
Qed.

Lemma lineless_append s t :
  lineless (s +:+ t) = lineless s && lineless t.
Proof.
  induction s as [|a s IH]; [done|]. rewrite append_cons. simpl.
  rewrite IH. by destruct (is_newline a).
Qed.

Lemma lineless_unwords ws :
  Forall (λ w, word_ok w = true) ws → lineless (unwords ws) = true.
Proof.
  induction 1 as [|w ws Hw Hws IH]; [done|].
  unfold word_ok in Hw. apply andb_prop in Hw as [_ Hsp].
  destruct ws as [|w' ws]; [by apply spaceless_lineless|].
  change (unwords (w :: w' :: ws)) with (w +:+ String " " (unwords (w' :: ws))).
  rewrite lineless_append, spaceless_lineless by done. simpl. exact IH.
Qed.

Lemma split_newline_line l line s :
  lineless l = true →
  split_newline line (l +:+ s) = split_newline (line +:+ l) s.
Proof.
  revert line. induction l as [|a l IH]; intros line Hl.
  - by rewrite append_nil_l, append_nil_r.
  - rewrite append_cons. simpl in *.
    apply andb_prop in Hl as [Ha Hl]. apply negb_true_iff in Ha. rewrite Ha.
    rewrite IH by done. by rewrite append_assoc.
Qed.

Lemma split_newline_unlines ls :
  ls ≠ [] → Forall (λ l, lineless l = true) ls →
  split_newline EmptyString (unlines ls) = ls.
Proof.
  intros Hne Hls. induction Hls as [|l ls Hl Hls IH]; [done|].
  destruct ls as [|l' ls].
  - change (unlines [l]) with l. rewrite <- (append_nil_r l) at 1.
    by rewrite split_newline_line, append_nil_l.
  - change (unlines (l :: l' :: ls)) with (l +:+ String "010" (unlines (l' :: ls))).
    rewrite split_newline_line, append_nil_l, split_newline_sep by done.
    by rewrite IH.
Qed.

Lemma split_newline_trailing line s :
  split_newline line (s +:+ String "010" EmptyString)
    = split_newline line s ++ [EmptyString].
Proof.
  revert line. induction s as [|a s IH]; intros line; [done|].
  rewrite append_cons. simpl.
  destruct (is_newline a); simpl; by rewrite IH.
Qed.

(** X13.  Every preference of a vote read from the file is a word that is
    not empty and holds no space character, and every vote read has
    weight 1. *)
Theorem read_votes_words (inp : string) (v : Vote.t) :
  v ∈ read_votes inp →
  Vote.weight v = 1%Q ∧
  ∀ p, p ∈ Vote.prefs v → p ≠ EmptyString ∧ spaceless p = true.
Proof.
  unfold read_votes, Context.get_votes. rewrite map_map.
  intros Hv. apply list_elem_of_In, in_map_iff in Hv as (line & <- & _).
  split; [done|]. simpl. intros p Hp.
  apply (split_space_ok EmptyString line p eq_refl) in Hp.
  unfold word_ok in Hp. apply andb_prop in Hp as [Hne Hsp].
  split; [|done]. by apply negb_true_iff, bool_decide_eq_false in Hne.
Qed.

(** X14.  The ballots written one per line, their words separated by one
    space, are read back as they were, when there is at least one ballot
    and every word is non-empty and without space character. *)
Theorem read_votes_unlines (ballots : list (list string)) :
  ballots ≠ [] →
  Forall (Forall (λ w, word_ok w = true)) ballots →
  read_votes (unlines (map unwords ballots)) = Context.get_votes ballots.
Proof.
  intros Hne Hok. unfold read_votes. f_equal.
  rewrite split_newline_unlines.
  - rewrite map_map. clear Hne. induction Hok as [|b bs Hb Hbs IH]; [done|].
    simpl. by rewrite split_space_unwords, IH.
  - by destruct ballots.
  - apply Forall_forall. intros l Hl.
    apply list_elem_of_In, in_map_iff in Hl as (b & <- & Hb).
    apply lineless_unwords. rewrite Forall_forall in Hok.
    by apply Hok, list_elem_of_In.
Qed.

(** X15.  A line feed at the end of the file adds one white vote, which
    the constructor discards: the votes kept are those of the file without
    that line feed. *)
Theorem read_votes_trailing_newline (inp : string) :
  read_votes (inp +:+ String "010" EmptyString) = read_votes inp ++ [Vote.new []] ∧
  Context.destroy_white_votes (read_votes (inp +:+ String "010" EmptyString))
    = Context.destroy_white_votes (read_votes inp).
Proof.
  assert (H : read_votes (inp +:+ String "010" EmptyString)
              = read_votes inp ++ [Vote.new []]).
  { unfold read_votes, Context.get_votes.
    rewrite split_newline_trailing, !map_app. done. }
  split; [done|]. rewrite H. unfold Context.destroy_white_votes.
  rewrite List.filter_app. simpl. by rewrite app_nil_r.
Qed.

Lemma read_votes_words_witness :
  Vote.new ["A"; "B"] ∈ read_votes "A  B" ∧
  ∀ p, p ∈ ["A"; "B"] → p ≠ EmptyString ∧ spaceless p = true.
Proof.
  assert (Hin : Vote.new ["A"; "B"] ∈ read_votes "A  B") by (vm_compute; left).
  split; [exact Hin|].
  apply (read_votes_words "A  B" (Vote.new ["A"; "B"]) Hin).
Defined.

Lemma read_votes_unlines_witness :
  [["A"; "B"]; []; ["C"]] ≠ [] ∧
  read_votes (unlines (map unwords [["A"; "B"]; []; ["C"]]))
    = Context.get_votes [["A"; "B"]; []; ["C"]].
Proof.
  assert (Hne : [["A"; "B"]; []; ["C"]] ≠ ([] : list (list string))) by discriminate.
  split; [exact Hne|].
  apply (read_votes_unlines [["A"; "B"]; []; ["C"]] Hne).
  repeat constructor.
Defined.

(** ** Rounds at a concrete election *)

Lemma round_decision_witness :
  ∃ c' p, Context.election_phase six_assigned = Ok c' ∧
          p ∈ Context.participants six_assigned ∧
          (names (Context.winners c')
             = names (Context.winners six_assigned) ++ [Participant.name p] ∨
           names (Context.eliminated c')
             = names (Context.eliminated six_assigned) ++ [Participant.name p]).
Proof.
  assert (Hrun : ∃ c', Context.election_phase six_assigned = Ok c')
    by (eexists; vm_compute; reflexivity).
  destruct Hrun as [c' Hc'].
  destruct (round_decision six_assigned c' Hc')
    as [(p & Hp & _ & _ & Hw & _)|(p & Hp & _ & He)].
  - exists c', p. split_and!; [exact Hc' | exact Hp | left; exact Hw].
  - exists c', p. split_and!; [exact Hc' | exact Hp | right; exact He].
Defined.

Lemma election_loop_returns_complete_witness :
  ∃ c', Context.election_loop 2 six_election = Some (Ok c') ∧
        Z.of_nat (length (Context.winners c')) = Context.seats c'.
Proof.
  assert (Hrun : ∃ c', Context.election_loop 2 six_election = Some (Ok c'))
    by (eexists; vm_compute; reflexivity).
  destruct Hrun as [c' Hc'].
  exists c'. split; [exact Hc'|].
  apply (election_loop_returns_complete 2 six_election c' Hc').
Defined.

(** * The seats and the surplus, in full *)

(** ** No check of the seats *)

Lemma election_phase_counts c :
  Context.phase (state_of (Context.election_phase c)) = S (Context.phase c) ∧
  Context.seats (state_of (Context.election_phase c)) = Context.seats c.
Proof.
  destruct (election_phase_cases c)
    as [[_ ->]|[(first & rest & Hs & Hv & [[_ ->]|[_ ->]])
               |(first & others & last & Hs & Hhd & Hlow & [[_ ->]|[_ ->]])]];
    try done;
    match goal with
    | |- context [Context.migrate ?c1 ?h ?s ?w] =>
        destruct (migrate_state_frame c1 h s w) as (-> & -> & _)
    end; done.
Qed.

Lemma init_builds pnames seats ballots :
  Context.fits_float seats = true → seats ≠ (-1)%Z →
  ∃ c0, Context.init pnames seats ballots = inr c0.
Proof.
  intros Hfit Hs. unfold Context.init. rewrite Hfit. simpl.
  destruct (seats + 1 =? 0)%Z eqn:E; [|by eexists].
  apply Z.eqb_eq in E. lia.
Qed.

Lemma init_assigned pnames seats ballots c0 c1 :
  Context.init pnames seats ballots = inr c0 →
  Context.assign_votes c0 = Ok c1 →
  Context.seats c1 = seats ∧ Context.phase c1 = O ∧
  Context.winners c1 = [] ∧ Context.eliminated c1 = [] ∧
  length (Context.participants c1) = length pnames.
Proof.
  intros Hinit%init_inr Hc1.
  apply boundary_start_inv in Hc1 as (ps & -> & Hn). subst c0. simpl in *.
  split_and!; try done.
  rewrite <- names_length, Hn, names_get_participants. done.
Qed.

(** C3, as amended.  Nothing checks the seats against the candidates.
    For every [seats] that the arithmetic of the quota goes through with,
    that is, every [seats] other than -1 that fits a float, and whatever
    the number of candidates, the constructor builds the context.  When
    the first preferences all name candidates, the initial assignment then
    succeeds and no round has run; with [seats = 0] [election_loop]
    returns at once, without a round and without an error; with any other
    [seats], so with [seats <= -2] and with more seats than candidates,
    the election is not complete and the loop executes round 1. *)
Theorem configuration_unchecked (pnames : list string) (seats : Z)
    (ballots : list (list string)) :
  Context.fits_float seats = true → seats ≠ (-1)%Z →
  ∃ c0, Context.init pnames seats ballots = inr c0 ∧
    (known_first_choices pnames ballots →
     ∃ c1, Context.assign_votes c0 = Ok c1 ∧
           Context.phase c1 = O ∧ Context.winners c1 = [] ∧
       (seats = 0%Z → ∀ fuel, Context.election_loop fuel c0 = Some (Ok c1)) ∧
       (seats ≠ 0%Z →
        Context.complete c1 = false ∧
        Context.phase (state_of (Context.election_phase c1)) = 1%nat ∧
        ∀ fuel, Context.election_loop (S fuel) c0 =
                match Context.election_phase c1 with
                | Ok c2 => Context.rounds fuel c2
                | Raise e c2 => Some (Raise e c2)
                end)).
Proof.
  intros Hfit Hs.
  destruct (init_builds pnames seats ballots Hfit Hs) as [c0 Hinit].
  exists c0. split; [done|]. intros Hknown.
  destruct (init_known _ _ _ _ Hinit Hknown) as (c1 & Hc1).
  destruct (init_assigned _ _ _ _ _ Hinit Hc1) as (Hseats & Hph & Hw & _).
  exists c1. split; [done|]. split; [done|]. split; [done|]. split.
  - intros -> fuel. unfold Context.election_loop. rewrite Hc1.
    assert (Context.complete c1 = true) as Hdone
      by (unfold Context.complete; rewrite Hw, Hseats; done).
    destruct fuel; simpl; by rewrite Hdone.
  - intros Hz.
    assert (Context.complete c1 = false) as Hnot.
    { unfold Context.complete. rewrite Hw, Hseats. apply Z.eqb_neq. simpl. lia. }
    split; [done|]. split.
    + destruct (election_phase_counts c1) as [-> _]. by rewrite Hph.
    + intros fuel. unfold Context.election_loop. rewrite Hc1.
      change (Context.rounds (S fuel) c1)
        with (if Context.complete c1 then Some (Ok c1)
              else match Context.election_phase c1 with
                   | Ok c' => Context.rounds fuel c'
                   | Raise e c' => Some (Raise e c')
                   end).
      by rewrite Hnot.
Qed.

Lemma configuration_unchecked_witness :
  Context.fits_float 2 = true ∧ (2 ≠ -1)%Z ∧ (2 ≠ 0)%Z ∧
  Context.fits_float (-2) = true ∧ (-2 ≠ -1)%Z ∧ (-2 ≠ 0)%Z ∧
  known_first_choices ["A"] [["A"]] ∧
  (∃ c0 c1, Context.init ["A"] 2 [["A"]] = inr c0 ∧
     Context.assign_votes c0 = Ok c1 ∧
     Context.complete c1 = false ∧
     Context.phase (state_of (Context.election_phase c1)) = 1%nat) ∧
  (∃ c0 c1, Context.init ["A"] (-2) [["A"]] = inr c0 ∧
     Context.assign_votes c0 = Ok c1 ∧
     Context.complete c1 = false ∧
     Context.phase (state_of (Context.election_phase c1)) = 1%nat) ∧
  (∃ c0 c1, Context.init ["A"] 0 [["A"]] = inr c0 ∧
     Context.assign_votes c0 = Ok c1 ∧
     Context.election_loop 0 c0 = Some (Ok c1) ∧
     Context.winners c1 = []).
Proof.
  assert (Hknown : known_first_choices ["A"] [["A"]])
    by (apply first_choices_known_spec; reflexivity).
  assert (Hfit : ∀ z, (Z.abs z < 3)%Z → Context.fits_float z = true).
  { intros z Hz. unfold Context.fits_float. apply Z.ltb_lt.
    eapply Z.lt_trans; [exact Hz|]. vm_compute. reflexivity. }
  assert (Hfit2 : Context.fits_float 2 = true) by (apply Hfit; simpl; lia).
  assert (Hfitn : Context.fits_float (-2) = true) by (apply Hfit; simpl; lia).
  assert (Hfit0 : Context.fits_float 0 = true) by (apply Hfit; simpl; lia).
  split; [exact Hfit2|]. split; [lia|]. split; [lia|].
  split; [exact Hfitn|]. split; [lia|]. split; [lia|].
  split; [exact Hknown|].
  destruct (configuration_unchecked ["A"] 2 [["A"]] Hfit2 ltac:(lia))
    as (c0 & Hinit & Hloop).
  destruct (Hloop Hknown) as (c1 & Hc1 & _ & _ & _ & Hround).
  destruct (Hround ltac:(lia)) as (Hnot & Hph & _).
  destruct (configuration_unchecked ["A"] (-2) [["A"]] Hfitn ltac:(lia))
    as (d0 & Hinitn & Hloopn).
  destruct (Hloopn Hknown) as (d1 & Hd1 & _ & _ & _ & Hroundn).
  destruct (Hroundn ltac:(lia)) as (Hnotn & Hphn & _).
  destruct (configuration_unchecked ["A"] 0 [["A"]] Hfit0 ltac:(lia))
    as (e0 & Hinit0 & Hloop0).
  destruct (Hloop0 Hknown) as (e1 & He1 & _ & Hw0 & Hret & _).
  split; [|split].
  - exists c0, c1. split; [exact Hinit|]. split; [exact Hc1|].
    split; [exact Hnot | exact Hph].
  - exists d0, d1. split; [exact Hinitn|]. split; [exact Hd1|].
    split; [exact Hnotn | exact Hphn].
  - exists e0, e1. split; [exact Hinit0|]. split; [exact He1|].
    split; [exact (Hret eq_refl O) | exact Hw0].
Defined.

(** The two seats the constructor does not go through with: -1, where the
    quota divides by zero, and one beyond the floats, where the integer
    cannot be converted; the largest integer below the limit is built. *)
Example constructor_raises :
  Context.init ["A"] (-1) [["A"]] = inl ZeroDivisionError ∧
  Context.init ["A"] (10 ^ 400) [["A"]] = inl OverflowError ∧
  ∃ c0, Context.init ["A"] (Context.float_limit - 1) [["A"]] = inr c0.
Proof.
  split; [vm_compute; reflexivity|]. split; [vm_compute; reflexivity|].
  apply init_builds; [vm_compute; reflexivity|]. vm_compute. discriminate.
Qed.

(** X16.  More seats than candidates: when the first preferences all name
    candidates, the loop runs one round per candidate and the round after
    raises IndexError on the empty list of participants, with every
    candidate among the winners or the eliminated. *)
Theorem overbooked_raises (pnames : list string) (seats : Z)
    (ballots : list (list string)) (c0 : Context.t) (fuel : nat) :
  Context.init pnames seats ballots = inr c0 →
  known_first_choices pnames ballots →
  (Z.of_nat (length pnames) < seats)%Z →
  (length pnames < fuel)%nat →
  ∃ c', Context.election_loop fuel c0 = Some (Raise IndexError c') ∧
        Context.phase c' = S (length pnames) ∧
        Context.participants c' = [] ∧
        (length (Context.winners c') + length (Context.eliminated c'))%nat
          = length pnames.
Proof.
  intros Hinit Hknown Hover Hfuel.
  destruct (init_known _ _ _ _ Hinit Hknown) as (c & Hc).
  destruct (init_running _ _ _ _ _ Hinit Hc)
    as (Hsound & Hq & Hseats & Hw & He & Hph & Hlen); [lia|].
  destruct (overbooked_rounds seats (length pnames) fuel c)
    as (c' & Hr & Hph' & Hnil & Hwidth).
  - unfold overbooked. rewrite Hw, He, Hlen. simpl. split_and!; try done. lia.
  - lia.
  - exists c'. unfold Context.election_loop. rewrite Hc.
    split_and!; [done| |done|done]. rewrite Hph', Hph, Hlen. done.
Qed.

Lemma overbooked_raises_witness :
  known_first_choices ["A"] [["A"]] ∧
  ∃ c0, Context.init ["A"] 2 [["A"]] = inr c0 ∧
    ∃ c', Context.election_loop 2 c0 = Some (Raise IndexError c') ∧
          Context.phase c' = 2%nat ∧
          Context.participants c' = [] ∧
          (length (Context.winners c') + length (Context.eliminated c'))%nat = 1%nat.
Proof.
  assert (Hknown : known_first_choices ["A"] [["A"]])
    by (apply first_choices_known_spec; reflexivity).
  split; [exact Hknown|].
  eexists. split; [reflexivity|].
  apply (overbooked_raises ["A"] 2 [["A"]] _ 2 eq_refl Hknown); simpl; lia.
Defined.

Lemma negative_rounds fuel c :
  (Context.seats c < 0)%Z →
  (length (Context.participants c) < fuel)%nat →
  ∃ e c', Context.rounds fuel c = Some (Raise e c') ∧
          (Context.phase c < Context.phase c')%nat.
Proof.
  revert c. induction fuel as [|fuel IH]; intros c Hneg Hfuel; [lia|].
  change (Context.rounds (S fuel) c)
    with (if Context.complete c then Some (Ok c)
          else match Context.election_phase c with
               | Ok c' => Context.rounds fuel c'
               | Raise e c' => Some (Raise e c')
               end).
  assert (Context.complete c = false) as ->
    by (unfold Context.complete; apply Z.eqb_neq; lia).
  destruct (election_phase_counts c) as [Hph Hs].
  destruct (Context.election_phase c) as [c1|e c1] eqn:Hc1; simpl in Hph, Hs.
  - apply election_phase_shrinks in Hc1.
    destruct (IH c1) as (e & c' & -> & Hlt); [lia|lia|].
    exists e, c'. split; [done|lia].
  - exists e, c1. split; [done|lia].
Qed.

(** X17.  Fewer than zero seats, other than -1: when the first preferences
    all name candidates, the loop runs rounds until one of them raises, at
    the latest the round after the one that removes the last candidate;
    it never returns. *)
Theorem negative_seats_raise (pnames : list string) (seats : Z)
    (ballots : list (list string)) (c0 : Context.t) (fuel : nat) :
  Context.init pnames seats ballots = inr c0 →
  known_first_choices pnames ballots →
  (seats < 0)%Z →
  (length pnames < fuel)%nat →
  ∃ e c', Context.election_loop fuel c0 = Some (Raise e c') ∧
          (1 <= Context.phase c')%nat.
Proof.
  intros Hinit Hknown Hneg Hfuel.
  destruct (init_known _ _ _ _ Hinit Hknown) as (c & Hc).
  destruct (init_assigned _ _ _ _ _ Hinit Hc) as (Hseats & Hph & _ & _ & Hlen).
  destruct (negative_rounds fuel c) as (e & c' & Hr & Hlt); [lia|lia|].
  exists e, c'. unfold Context.election_loop. rewrite Hc. split; [done|lia].
Qed.

Lemma negative_seats_raise_witness :
  known_first_choices ["A"] [["A"]] ∧
  ∃ c0, Context.init ["A"] (-2) [["A"]] = inr c0 ∧
    ∃ e c', Context.election_loop 2 c0 = Some (Raise e c') ∧
            (1 <= Context.phase c')%nat.
Proof.
  assert (Hknown : known_first_choices ["A"] [["A"]])
    by (apply first_choices_known_spec; reflexivity).
  split; [exact Hknown|].
  eexists. split; [vm_compute; reflexivity|].
  apply (negative_seats_raise ["A"] (-2) [["A"]] _ 2); [vm_compute; reflexivity | exact Hknown | lia | simpl; lia].
Defined.

(** ** The surplus of a winner *)

Lemma total_weight_cons store i l :
  (total_weight store (i :: l)
     == Vote.weight (Participant.vote_at store i) + total_weight store l)%Q.
Proof.
  rewrite (total_weight_app store [i] l). unfold total_weight at 1. simpl. ring.
Qed.

Lemma total_weight_perm store l k :
  l ≡ₚ k → (total_weight store l == total_weight store k)%Q.
Proof.
  induction 1 as [|i l k _ IH|i j l|l k m _ IH1 _ IH2].
  - reflexivity.
  - by rewrite !total_weight_cons, IH.
  - rewrite !total_weight_cons. ring.
  - by rewrite IH1.
Qed.

Lemma total_weight_split store l :
  (total_weight store (passed_on store l) + total_weight store (exhausted store l)
     == total_weight store l)%Q.
Proof.
  unfold passed_on, exhausted. induction l as [|i l IH]; simpl.
  - reflexivity.
  - destruct (Vote.is_white (Participant.vote_at store i)); simpl;
      rewrite !total_weight_cons, <- IH; ring.
Qed.

Lemma total_weight_same s s' l :
  (∀ i, i ∈ l → s' !! i = s !! i) →
  (total_weight s' l == total_weight s l)%Q.
Proof.
  induction l as [|i l IH]; intros H; [reflexivity|].
  rewrite !total_weight_cons, IH.
  - unfold Participant.vote_at. rewrite (H i) by by left. reflexivity.
  - intros j Hj. apply H. by right.
Qed.

Lemma elem_of_passed_on store l i :
  i ∈ passed_on store l ↔
  i ∈ l ∧ Vote.is_white (Participant.vote_at store i) = false.
Proof.
  unfold passed_on. rewrite !list_elem_of_In, filter_In, negb_true_iff. done.
Qed.

Lemma NoDup_passed_on store l : NoDup l → NoDup (passed_on store l).
Proof.
  induction 1 as [|i l Hi _ IH]; [constructor|].
  unfold passed_on in *. simpl.
  destruct (negb _); [|done]. constructor; [|done].
  intros Hin. apply Hi. apply list_elem_of_In in Hin. apply filter_In in Hin as [Hin _].
  by apply list_elem_of_In.
Qed.

(** The winner case of a round, from a sound context: the loop of
    [migrate] runs to its end with the surplus coefficient. *)
Lemma promote_run c first rest :
  sound c → (0 < Context.quota c)%Q →
  Context.sort_desc (Participant.count_votes (Context.votes c))
    (Context.participants c) = first :: rest →
  (Context.quota c <= Participant.count_votes (Context.votes c) first)%Q →
  ∃ c2,
    Context.election_phase c = Ok (Context.clear_source Context.in_winners c2) ∧
    Context.winners c2 = Context.winners c ++ [first] ∧
    grows rest (Context.participants c2) ∧
    sound c2 ∧
    (∀ i, i ∈ owned (Context.participants c2) →
          i ∈ Participant.votes first ∨ i ∈ owned rest) ∧
    (∀ i, i ∉ Participant.votes first → Context.votes c2 !! i = Context.votes c !! i) ∧
    (∀ i, i ∈ Participant.votes first →
          moved
            ((Participant.count_votes (Context.votes c) first - Context.quota c)
               / Participant.count_votes (Context.votes c) first)%Q
            (Context.set_participants rest c) i c2).
Proof.
  intros [Hnd Hlive] Hq Hs Hv.
  pose proof (owned_sort (Participant.count_votes (Context.votes c))
                (Context.participants c)) as Hperm.
  rewrite Hs in Hperm. simpl in Hperm.
  destruct (election_phase_cases c)
    as [[Hnil _]|[(first' & rest' & Hs' & _ & [[Hz _]|[_ Hrun]])
               |(first' & others & last & _ & Hhd & Hlow & _)]].
  - congruence.
  - rewrite Hs in Hs'. injection Hs' as <- <-.
    exfalso. rewrite Hz in Hv. by apply Qle_not_lt in Hv.
  - rewrite Hs in Hs'. injection Hs' as <- <-.
    set (c1 := Context.set_participants rest _) in Hrun.
    destruct (migrate_votes_spec
      ((Participant.count_votes (Context.votes c) first - Context.quota c)
         / Participant.count_votes (Context.votes c) first)%Q
      (Participant.votes first) c1) as (c2 & Hloop & Hm).
    + simpl. by rewrite Hperm.
    + intros i Hi. apply Hlive. by rewrite <- Hperm.
    + destruct Hm as (Hfr & Hnd2 & Hlive2 & Hsub & Hsame & Hmoved).
      simpl in Hnd2, Hlive2.
      pose proof (migrate_votes_grows
        ((Participant.count_votes (Context.votes c) first - Context.quota c)
           / Participant.count_votes (Context.votes c) first)%Q
        (Participant.votes first) c1) as Hg.
      rewrite Hloop in Hg.
      exists c2.
      split; [rewrite Hrun; unfold Context.migrate; by rewrite Hloop|].
      split; [destruct Hfr as (_ & Hw & _); by rewrite Hw|].
      split; [exact Hg|].
      split; [split; [exact Hnd2 | exact Hlive2]|].
      split; [exact Hsub|]. split; [exact Hsame | exact Hmoved].
  - rewrite Hs in Hhd. injection Hhd as <-.
    exfalso. by apply Qle_not_lt in Hv.
Qed.

Lemma grows_owned ps ps' i : grows ps ps' → i ∈ owned ps → i ∈ owned ps'.
Proof.
  unfold grows, owned. induction 1 as [|q q' ps ps' [_ Hpre] _ IH]; [done|].
  simpl. rewrite !elem_of_app. intros [Hi|Hi]; [left|right; apply IH; exact Hi].
  destruct Hpre as [k Hk]. rewrite Hk. apply elem_of_app. by left.
Qed.

Lemma live_not_white store i :
  live store i → Vote.is_white (Participant.vote_at store i) = false.
Proof.
  intros (v & Hv & Hne). unfold Participant.vote_at. rewrite Hv. simpl.
  unfold Vote.is_white. destruct (Vote.prefs v) eqn:E; [congruence|done].
Qed.

(** C7 fails as stated: in round 1 of the election of six ballots, A has
    [v = 4] votes against the quota [q = 3], and its votes leave with
    weight 1/4 each; the vote that names nobody after A is dropped, so B
    and C together receive 3/4 and not [v - q = 1], and A is left with no
    vote at all. *)
Lemma surplus_partly_dropped :
  ∃ c', Context.election_phase six_assigned = Ok c' ∧
    Context.sort_desc (Participant.count_votes (Context.votes six_assigned))
      (Context.participants six_assigned)
      = Participant.mk "A" [0; 1; 2; 3]
          :: [Participant.mk "B" [4]; Participant.mk "C" [5]] ∧
    Qeq (Participant.count_votes (Context.votes six_assigned)
           (Participant.mk "A" [0; 1; 2; 3])) 4 ∧
    Qeq (Context.quota six_assigned) 3 ∧
    Context.winners c' = [Participant.mk "A" []] ∧
    Context.participants c'
      = [Participant.mk "B" [4; 0; 1]; Participant.mk "C" [5; 2]] ∧
    (3 ∉ held c') ∧
    Qeq (tally (Context.votes c') (Context.participants c')
         - tally (Context.votes six_assigned)
             [Participant.mk "B" [4]; Participant.mk "C" [5]]) (3 # 4) ∧
    ¬ Qeq (3 # 4) (4 - 3).
Proof.
  eexists. split; [vm_compute; reflexivity|].
  split; [reflexivity|]. split; [reflexivity|]. split; [reflexivity|].
  split; [reflexivity|]. split; [reflexivity|].
  split; [apply (bool_decide_unpack _); vm_compute; exact I|].
  split; [vm_compute; reflexivity | discriminate].
Qed.

(** C7, as amended.  When the leader of a round has [v] votes and [v] is
    at least the quota [q > 0], the round succeeds with the coefficient
    [(v - q) / v]: the winner is appended to the winners with its list of
    votes emptied; every vote it held has lost its first preference and
    has its weight multiplied by the coefficient, and is held by the
    participant still running that its first remaining preference names,
    or by nobody when no preference names one; the participants still
    running keep the votes they had, and the votes passed on are all they
    gain, so that their counts rise together by the weight passed on; and
    the weight passed on plus the weight of the votes dropped is [v - q]. *)
Theorem surplus_transfer_accounted (c : Context.t) (first : Participant.t)
    (rest : list Participant.t) :
  sound c → (0 < Context.quota c)%Q →
  Context.sort_desc (Participant.count_votes (Context.votes c))
    (Context.participants c) = first :: rest →
  (Context.quota c <= Participant.count_votes (Context.votes c) first)%Q →
  ∃ c', Context.election_phase c = Ok c' ∧
    Context.winners c' = Context.winners c ++ [Participant.clear first] ∧
    grows rest (Context.participants c') ∧
    (∀ i, i ∈ Participant.votes first →
       moved (surplus_coefficient c first) (Context.set_participants rest c) i c') ∧
    owned (Context.participants c')
      ≡ₚ owned rest ++ passed_on (Context.votes c') (Participant.votes first) ∧
    (∀ i, i ∉ Participant.votes first →
       Context.votes c' !! i = Context.votes c !! i) ∧
    (tally (Context.votes c') (Context.participants c')
       == tally (Context.votes c) rest
          + total_weight (Context.votes c')
              (passed_on (Context.votes c') (Participant.votes first)))%Q ∧
    (total_weight (Context.votes c')
       (passed_on (Context.votes c') (Participant.votes first))
     + total_weight (Context.votes c')
         (exhausted (Context.votes c') (Participant.votes first))
     == Participant.count_votes (Context.votes c) first - Context.quota c)%Q.
Proof.
  intros Hsound Hq Hs Hv.
  destruct (promote_run c first rest Hsound Hq Hs Hv)
    as (c2 & Hrun & Hwin & Hgrows & [Hnd2 Hlive2] & Hsub & Hsame & Hmoved).
  fold (surplus_coefficient c first) in Hmoved.
  destruct Hsound as [Hnd Hlive].
  pose proof (owned_sort (Participant.count_votes (Context.votes c))
                (Context.participants c)) as Hperm.
  rewrite Hs in Hperm. unfold owned in Hperm. simpl in Hperm. fold (owned rest) in Hperm.
  rewrite <- Hperm in Hnd.
  apply NoDup_app in Hnd as (Hndf & Hdisj & Hndr).
  assert (Hown : owned (Context.participants c2)
            ≡ₚ owned rest ++ passed_on (Context.votes c2) (Participant.votes first)).
  { apply NoDup_Permutation; [done| |].
    - apply NoDup_app. split; [done|]. split; [|by apply NoDup_passed_on].
      intros i Hi [Hin _]%elem_of_passed_on. by apply (Hdisj i).
    - intros i. rewrite elem_of_app, elem_of_passed_on. split.
      + intros Hi. destruct (Hsub i Hi) as [Hf|Hr]; [right|by left].
        split; [done|]. by apply live_not_white, Hlive2.
      + intros [Hr|[Hf Hw]]; [by eapply grows_owned|].
        destruct (Hmoved i Hf) as (u & u' & p & sk & _ & Hu' & _ & _ & _ & Hheld).
        unfold Participant.vote_at in Hw. rewrite Hu' in Hw. simpl in Hw.
        unfold Vote.is_white in Hw.
        destruct (Vote.prefs u') as [|n l]; [done|].
        destruct Hheld as (k & q & _ & Hk & _ & Hi). by eapply owned_lookup. }
  exists (Context.clear_source Context.in_winners c2).
  split; [done|].
  split; [simpl; by rewrite Hwin, alter_last_snoc|].
  split; [done|]. split; [done|]. split; [done|]. split; [done|].
  change (Context.votes (Context.clear_source Context.in_winners c2))
    with (Context.votes c2).
  change (Context.participants (Context.clear_source Context.in_winners c2))
    with (Context.participants c2).
  split.
  - rewrite !tally_owned, (total_weight_perm _ _ _ Hown), total_weight_app.
    rewrite (total_weight_same (Context.votes c) (Context.votes c2) (owned rest)).
    + reflexivity.
    + intros i Hi. apply Hsame. intros Hf. by apply (Hdisj i).
  - rewrite total_weight_split.
    rewrite (total_weight_scale (Context.votes c) (Context.votes c2) _
               (surplus_coefficient c first)).
    + change (total_weight (Context.votes c) (Participant.votes first))
        with (Participant.count_votes (Context.votes c) first).
      unfold surplus_coefficient.
      field. intros Hz. rewrite Hz in Hv. by apply Qle_not_lt in Hv.
    + intros i Hi.
      destruct (Hmoved i Hi) as (u & u' & _ & _ & Hu & Hu' & _ & _ & Hw & _).
      simpl in Hu. unfold Participant.vote_at. by rewrite Hu, Hu'.
Qed.

Lemma surplus_transfer_accounted_witness :
  sound six_assigned ∧
  Qlt 0 (Context.quota six_assigned) ∧
  Qle (Context.quota six_assigned)
      (Participant.count_votes (Context.votes six_assigned)
         (Participant.mk "A" [0; 1; 2; 3])) ∧
  ∃ c', Context.election_phase six_assigned = Ok c' ∧
        Context.winners c' = [] ++ [Participant.mk "A" []] ∧
        owned (Context.participants c')
          ≡ₚ [4; 5] ++ passed_on (Context.votes c') [0; 1; 2; 3] ∧
        Qeq (total_weight (Context.votes c') (passed_on (Context.votes c') [0; 1; 2; 3])
             + total_weight (Context.votes c') (exhausted (Context.votes c') [0; 1; 2; 3]))
            (4 - 3).
Proof.
  assert (Hsound : sound six_assigned) by (apply sound_check_spec; reflexivity).
  assert (Hq : Qlt 0 (Context.quota six_assigned)) by reflexivity.
  assert (Hv : Qle (Context.quota six_assigned)
                 (Participant.count_votes (Context.votes six_assigned)
                    (Participant.mk "A" [0; 1; 2; 3])))
    by (apply Qle_bool_iff; reflexivity).
  split; [exact Hsound|]. split; [exact Hq|]. split; [exact Hv|].
  destruct (surplus_transfer_accounted six_assigned (Participant.mk "A" [0; 1; 2; 3])
              [Participant.mk "B" [4]; Participant.mk "C" [5]]
              Hsound Hq eq_refl Hv)
    as (c' & Hc' & Hwin & _ & _ & Hown & _ & _ & Hsum).
  exists c'. split; [exact Hc'|]. split; [exact Hwin|].
  split; [exact Hown | exact Hsum].
Defined.
